(** * CTIRegistry: a shallow embedding of contracts/CTIRegistry.sol

    The contract is a Solidity ^0.8.19 registry of cyber threat intelligence
    records with per-record vote tallies.  Storage is modelled as a record of
    finite maps read with Solidity's zero default, [uint256] values as [Z]
    with the checked arithmetic of Solidity 0.8 written out (an overflowing
    [++] aborts the call with [Panic(0x11)]), and every external function as
    a function from the pre-state to a [result]: a failed [require] or a
    panic aborts the call, and an aborted call leaves storage untouched.
    A [for] loop is a recursive function over an iteration budget that tests
    the loop condition first; each caller passes a budget that the theorems
    show to be enough, so no result below is [OutOfGas]. *)

From Stdlib Require Import ZArith Lia.
From stdpp Require Import gmap strings list list_numbers fin_maps sorting.

Open Scope Z_scope.

(** ** Machine integers *)

Definition MAX_UINT256 : Z := 2 ^ 256 - 1.
Definition MAX_INT256 : Z := 2 ^ 255 - 1.
Definition MIN_INT256 : Z := - 2 ^ 255.
Definition MAX_ADDRESS : Z := 2 ^ 160 - 1.

Definition is_uint256 (x : Z) : Prop := 0 ≤ x ≤ MAX_UINT256.
Definition is_address (a : Z) : Prop := 0 ≤ a ≤ MAX_ADDRESS.

(** ** Failures of a call *)

Definition PANIC_ARITHMETIC : Z := 17.  (* Panic(0x11): over- or underflow *)
Definition PANIC_INDEX : Z := 50.       (* Panic(0x32): array index out of bounds *)

Inductive error : Type :=
  | Revert (reason : string)   (* a failed [require(cond, reason)] *)
  | Panic (code : Z)           (* a failed compiler-inserted check *)
  | OutOfGas.                  (* a loop that exhausts its iteration budget *)

Inductive result (A : Type) : Type :=
  | Ok (a : A)
  | Err (e : error).
Arguments Ok {A} a.
Arguments Err {A} e.

Global Instance result_ret : MRet result := λ A a, Ok a.
Global Instance result_bind : MBind result := λ A B f r,
  match r with
  | Ok a => f a
  | Err e => Err e
  end.

Definition require (cond : bool) (reason : string) : result unit :=
  if cond then Ok () else Err (Revert reason).

(** [x++] on a [uint256] under checked arithmetic. *)
Definition checked_inc (x : Z) : result Z :=
  if bool_decide (x < MAX_UINT256) then Ok (x + 1) else Err (Panic PANIC_ARITHMETIC).

(** [int256(x)] for a [uint256] [x]: an explicit conversion reinterprets the
    256 bits in two's complement and performs no check. *)
Definition int256_of_uint256 (x : Z) : Z :=
  if bool_decide (x ≤ MAX_INT256) then x else x - 2 ^ 256.

(** [a - b] on [int256] under checked arithmetic. *)
Definition checked_sub_int256 (a b : Z) : result Z :=
  if bool_decide (MIN_INT256 ≤ a - b ≤ MAX_INT256) then Ok (a - b)
  else Err (Panic PANIC_ARITHMETIC).

(** ** Memory arrays of [uint256] *)

Definition new_array (n : Z) : list Z := replicate (Z.to_nat n) 0.

Definition array_get (arr : list Z) (i : Z) : result Z :=
  match arr !! Z.to_nat i with
  | Some v => Ok v
  | None => Err (Panic PANIC_INDEX)
  end.

Definition array_set (arr : list Z) (i v : Z) : result (list Z) :=
  if bool_decide (Z.to_nat i < length arr)%nat then Ok (<[Z.to_nat i := v]> arr)
  else Err (Panic PANIC_INDEX).

(** ** Storage *)

Record CTI : Type := mkCTI {
  id : Z;
  submitter : Z;
  ipfsHash : string;
  category : string;
  title : string;
  timestamp : Z;
  upvotes : Z;
  downvotes : Z;
  isActive : bool
}.

(** The value a [mapping(uint256 => CTI)] yields at a key never written. *)
Definition zero_CTI : CTI :=
  {| id := 0; submitter := 0; ipfsHash := ""; category := ""; title := "";
     timestamp := 0; upvotes := 0; downvotes := 0; isActive := false |}.

Record state : Type := mkState {
  ctiCounter : Z;
  ctiRecords : gmap Z CTI;
  hasVoted : gmap Z (gmap Z bool);
  userSubmissions : gmap Z Z
}.

(** State right after deployment: [ctiCounter = 0], all mappings empty. *)
Definition initial_state : state :=
  {| ctiCounter := 0; ctiRecords := ∅; hasVoted := ∅; userSubmissions := ∅ |}.

(** Reads of the three mappings, with the zero default. *)
Definition record_at (st : state) (_id : Z) : CTI :=
  default zero_CTI (ctiRecords st !! _id).

Definition voted_at (st : state) (_id _user : Z) : bool :=
  default false (default ∅ (hasVoted st !! _id) !! _user).

Definition submissions_of (st : state) (_user : Z) : Z :=
  default 0 (userSubmissions st !! _user).

(** ** Call context and events *)

Record env : Type := mkEnv {
  msg_sender : Z;
  block_timestamp : Z
}.

Inductive event : Type :=
  | CTISubmitted (_id _submitter : Z) (_ipfsHash _category _title : string)
  | CTIVoted (_id _validator : Z) (_isUpvote : bool)
  | CTIDeactivated (_id : Z).

(** ** Modifiers *)

Definition validCTI (st : state) (_id : Z) : result unit :=
  require (bool_decide (_id > 0) && bool_decide (_id ≤ ctiCounter st))
          "CTI does not exist";;
  require (isActive (record_at st _id)) "CTI is not active".

Definition hasNotVoted (st : state) (e : env) (_id : Z) : result unit :=
  require (negb (voted_at st _id (msg_sender e))) "Already voted on this CTI".

(** ** State-changing functions *)

Definition submitCTI (e : env) (_ipfsHash _category _title : string) (st : state)
  : result (state * list event) :=
  require (bool_decide (0 < String.length _ipfsHash)%nat) "IPFS hash cannot be empty";;
  require (bool_decide (0 < String.length _category)%nat) "Category cannot be empty";;
  require (bool_decide (0 < String.length _title)%nat) "Title cannot be empty";;
  counter ← checked_inc (ctiCounter st);
  let cti :=
    {| id := counter; submitter := msg_sender e; ipfsHash := _ipfsHash;
       category := _category; title := _title; timestamp := block_timestamp e;
       upvotes := 0; downvotes := 0; isActive := true |} in
  submissions ← checked_inc (submissions_of st (msg_sender e));
  Ok ({| ctiCounter := counter;
         ctiRecords := <[counter := cti]> (ctiRecords st);
         hasVoted := hasVoted st;
         userSubmissions := <[msg_sender e := submissions]> (userSubmissions st) |},
      [CTISubmitted counter (msg_sender e) _ipfsHash _category _title]).

Definition set_upvotes (c : CTI) (v : Z) : CTI :=
  {| id := id c; submitter := submitter c; ipfsHash := ipfsHash c;
     category := category c; title := title c; timestamp := timestamp c;
     upvotes := v; downvotes := downvotes c; isActive := isActive c |}.

Definition set_downvotes (c : CTI) (v : Z) : CTI :=
  {| id := id c; submitter := submitter c; ipfsHash := ipfsHash c;
     category := category c; title := title c; timestamp := timestamp c;
     upvotes := upvotes c; downvotes := v; isActive := isActive c |}.

Definition voteCTI (e : env) (_id : Z) (_isUpvote : bool) (st : state)
  : result (state * list event) :=
  validCTI st _id;;
  hasNotVoted st e _id;;
  require (negb (bool_decide (submitter (record_at st _id) = msg_sender e)))
          "Cannot vote on own submission";;
  let voted :=
    <[_id := <[msg_sender e := true]> (default ∅ (hasVoted st !! _id))]> (hasVoted st) in
  cti ← (if _isUpvote
         then v ← checked_inc (upvotes (record_at st _id));
              Ok (set_upvotes (record_at st _id) v)
         else v ← checked_inc (downvotes (record_at st _id));
              Ok (set_downvotes (record_at st _id) v));
  Ok ({| ctiCounter := ctiCounter st;
         ctiRecords := <[_id := cti]> (ctiRecords st);
         hasVoted := voted;
         userSubmissions := userSubmissions st |},
      [CTIVoted _id (msg_sender e) _isUpvote]).

(** ** View functions *)

Definition getCTI (st : state) (_id : Z) : result CTI :=
  validCTI st _id;;
  Ok (record_at st _id).

(** First loop of [getActiveCTIs]:
    [for (i = ctiCounter; i > 0 && count < _limit; i--)]. *)
Fixpoint getActiveCTIs_scan (gas : nat) (st : state) (_limit _offset : Z)
    (i : Z) (activeCTIs : list Z) (count currentOffset : Z)
  : result (list Z * Z) :=
  if bool_decide (i > 0) && bool_decide (count < _limit) then
    match gas with
    | O => Err OutOfGas
    | S gas' =>
        '(activeCTIs', count', currentOffset') ←
          (if isActive (record_at st i) then
             '(arr, cnt) ←
               (if bool_decide (currentOffset >= _offset) then
                  arr ← array_set activeCTIs count i;
                  cnt ← checked_inc count;
                  Ok (arr, cnt)
                else Ok (activeCTIs, count));
             cur ← checked_inc currentOffset;
             Ok (arr, cnt, cur)
           else Ok (activeCTIs, count, currentOffset));
        getActiveCTIs_scan gas' st _limit _offset (i - 1) activeCTIs' count' currentOffset'
    end
  else Ok (activeCTIs, count).

(** Second loop of [getActiveCTIs]: [for (i = 0; i < count; i++)]. *)
Fixpoint getActiveCTIs_copy (gas : nat) (activeCTIs : list Z) (count : Z)
    (i : Z) (result_ : list Z) : result (list Z) :=
  if bool_decide (i < count) then
    match gas with
    | O => Err OutOfGas
    | S gas' =>
        v ← array_get activeCTIs i;
        result' ← array_set result_ i v;
        i' ← checked_inc i;
        getActiveCTIs_copy gas' activeCTIs count i' result'
    end
  else Ok result_.

Definition getActiveCTIs (st : state) (_limit _offset : Z) : result (list Z) :=
  require (bool_decide (_limit > 0) && bool_decide (_limit ≤ 100)) "Invalid limit";;
  let activeCTIs := new_array _limit in
  '(activeCTIs', count) ←
    getActiveCTIs_scan (Z.to_nat (ctiCounter st)) st _limit _offset
                       (ctiCounter st) activeCTIs 0 0;
  getActiveCTIs_copy (Z.to_nat count) activeCTIs' count 0 (new_array count).

Definition getCTIScore (st : state) (_id : Z) : result Z :=
  validCTI st _id;;
  let cti := record_at st _id in
  checked_sub_int256 (int256_of_uint256 (upvotes cti)) (int256_of_uint256 (downvotes cti)).

Definition hasUserVoted (st : state) (_id _user : Z) : result bool :=
  Ok (voted_at st _id _user).

(** Loop of [getActiveCTICount]: [for (i = 1; i <= ctiCounter; i++)]. *)
Fixpoint getActiveCTICount_loop (gas : nat) (st : state) (i count : Z) : result Z :=
  if bool_decide (i ≤ ctiCounter st) then
    match gas with
    | O => Err OutOfGas
    | S gas' =>
        count' ← (if isActive (record_at st i) then checked_inc count else Ok count);
        i' ← checked_inc i;
        getActiveCTICount_loop gas' st i' count'
    end
  else Ok count.

Definition getActiveCTICount (st : state) : result Z :=
  getActiveCTICount_loop (Z.to_nat (ctiCounter st)) st 1 0.

(** ** The external interface

    A call names one of the contract's functions with its arguments; its
    outcome is the new storage, the events logged and the data returned to
    the caller.  The return data follows each function's [returns] clause:
    [submitCTI] and [voteCTI] declare none.  (The compiler-generated getters
    of the public state variables are plain storage reads and are left out.) *)

Inductive call : Type :=
  | SubmitCTI (_ipfsHash _category _title : string)
  | VoteCTI (_id : Z) (_isUpvote : bool)
  | GetCTI (_id : Z)
  | GetActiveCTIs (_limit _offset : Z)
  | GetCTIScore (_id : Z)
  | HasUserVoted (_id _user : Z)
  | GetActiveCTICount.

Inductive returndata : Type :=
  | RetNone
  | RetCTI (c : CTI)
  | RetUintArray (l : list Z)
  | RetInt (z : Z)
  | RetBool (b : bool)
  | RetUint (n : Z).

Definition view {A : Type} (st : state) (wrap : A → returndata) (r : result A)
  : result (state * list event * returndata) :=
  a ← r; Ok (st, [], wrap a).

Definition call_contract (e : env) (c : call) (st : state)
  : result (state * list event * returndata) :=
  match c with
  | SubmitCTI h cat t =>
      '(st', evs) ← submitCTI e h cat t st; Ok (st', evs, RetNone)
  | VoteCTI i up =>
      '(st', evs) ← voteCTI e i up st; Ok (st', evs, RetNone)
  | GetCTI i => view st RetCTI (getCTI st i)
  | GetActiveCTIs l o => view st RetUintArray (getActiveCTIs st l o)
  | GetCTIScore i => view st RetInt (getCTIScore st i)
  | HasUserVoted i u => view st RetBool (hasUserVoted st i u)
  | GetActiveCTICount => view st RetUint (getActiveCTICount st)
  end.

(** A transaction is a call together with its context.  Arguments arrive
    ABI-decoded, so they lie in the range of their Solidity type. *)
Record transaction : Type := mkTx {
  tx_env : env;
  tx_call : call
}.

Definition wf_call (c : call) : Prop :=
  match c with
  | SubmitCTI _ _ _ => True
  | VoteCTI i _ => is_uint256 i
  | GetCTI i => is_uint256 i
  | GetActiveCTIs l o => is_uint256 l ∧ is_uint256 o
  | GetCTIScore i => is_uint256 i
  | HasUserVoted i u => is_uint256 i ∧ is_address u
  | GetActiveCTICount => True
  end.

Definition wf_tx (tx : transaction) : Prop :=
  is_address (msg_sender (tx_env tx)) ∧
  is_uint256 (block_timestamp (tx_env tx)) ∧
  wf_call (tx_call tx).

(** Storage after a transaction: an aborted call changes nothing. *)
Definition step (st : state) (tx : transaction) : state :=
  match call_contract (tx_env tx) (tx_call tx) st with
  | Ok (st', _, _) => st'
  | Err _ => st
  end.

Definition run (st : state) (txs : list transaction) : state :=
  foldl step st txs.

Inductive reachable : state → Prop :=
  | reachable_init : reachable initial_state
  | reachable_step st tx :
      reachable st → wf_tx tx → reachable (step st tx).

(** ** Error kinds of the specification

    The specification names four failures; the contract signals them with
    [require] messages.  Panics and gas exhaustion have no kind. *)

Inductive ErrorKind : Type :=
  | InvalidArgument
  | NotFound
  | AlreadyVoted
  | SelfVoteForbidden.

Definition error_kind (e : error) : option ErrorKind :=
  match e with
  | Revert reason =>
      if bool_decide (reason = "IPFS hash cannot be empty") then Some InvalidArgument
      else if bool_decide (reason = "Category cannot be empty") then Some InvalidArgument
      else if bool_decide (reason = "Title cannot be empty") then Some InvalidArgument
      else if bool_decide (reason = "Invalid limit") then Some InvalidArgument
      else if bool_decide (reason = "CTI does not exist") then Some NotFound
      else if bool_decide (reason = "CTI is not active") then Some NotFound
      else if bool_decide (reason = "Already voted on this CTI") then Some AlreadyVoted
      else if bool_decide (reason = "Cannot vote on own submission") then Some SelfVoteForbidden
      else None
  | Panic _ => None
  | OutOfGas => None
  end.

Definition fails_with {A : Type} (r : result A) (k : ErrorKind) : Prop :=
  ∃ e, r = Err e ∧ error_kind e = Some k.

(** ** Specification-side definitions

    [active_ids_desc], [spec_listActive] and [spec_vote_failure] follow the
    wording of the specification and are compared with the contract's
    functions in the theorems below; the others serve to state loop
    invariants and histories. *)

(** The active ids among [i, i-1, ..., 1], in that order. *)
Definition active_ids_upto (st : state) (i : Z) : list Z :=
  filter (λ k, isActive (record_at st k) = true) (reverse (seqZ 1 i)).

(** The ids of all active records in descending id order. *)
Definition active_ids_desc (st : state) : list Z :=
  active_ids_upto st (ctiCounter st).

(** What the scan of [getActiveCTIs] has still to store when it stands at
    index [i], has stored [count] ids and has passed [cur] active records. *)
Definition scan_rest (st : state) (_limit _offset i count cur : Z) : list Z :=
  take (Z.to_nat (_limit - count))
       (drop (Z.to_nat (_offset - cur)) (active_ids_upto st i)).

(** The sub-slice [[offset, offset + limit)] of that sequence. *)
Definition spec_listActive (st : state) (limit offset : Z) : list Z :=
  take (Z.to_nat limit) (drop (Z.to_nat offset) (active_ids_desc st)).

(** A client paging through the listing: [n] calls with the same limit at
    offsets [offset], [offset + limit], [offset + 2 * limit], ..., the
    pages concatenated in the order fetched. *)
Fixpoint fetch_pages (st : state) (_limit _offset : Z) (n : nat) : result (list Z) :=
  match n with
  | O => Ok []
  | S n' =>
      page ← getActiveCTIs st _limit _offset;
      rest ← fetch_pages st _limit (_offset + _limit) n';
      Ok (page ++ rest)
  end.

(** The preconditions of [vote] in the order the specification lists them;
    the first one violated gives the error kind. *)
Definition spec_vote_failure (st : state) (voter _id : Z) : option ErrorKind :=
  if negb (bool_decide (1 ≤ _id ≤ ctiCounter st)) then Some NotFound
  else if negb (isActive (record_at st _id)) then Some NotFound
  else if voted_at st _id voter then Some AlreadyVoted
  else if bool_decide (submitter (record_at st _id) = voter) then Some SelfVoteForbidden
  else None.

(** Successful [submitCTI] calls among [txs], run in order from [st]. *)
Fixpoint successful_submits (st : state) (txs : list transaction) : Z :=
  match txs with
  | [] => 0
  | tx :: txs' =>
      (match tx_call tx, call_contract (tx_env tx) (tx_call tx) st with
       | SubmitCTI _ _ _, Ok _ => 1
       | _, _ => 0
       end) + successful_submits (step st tx) txs'
  end.

(** ** The invariant of reachable storage *)

(** The inner mapping [hasVoted[_id]]. *)
Definition voters (st : state) (_id : Z) : gmap Z bool :=
  default ∅ (hasVoted st !! _id).

Record registry_inv (st : state) : Prop := {
  inv_counter : 0 ≤ ctiCounter st ≤ MAX_UINT256;
  inv_assigned : ∀ k, is_Some (ctiRecords st !! k) ↔ 1 ≤ k ≤ ctiCounter st;
  inv_size : Z.of_nat (size (ctiRecords st)) = ctiCounter st;
  inv_record : ∀ k c, ctiRecords st !! k = Some c →
    id c = k ∧ isActive c = true ∧
    0 ≤ upvotes c ∧ 0 ≤ downvotes c ∧
    upvotes c + downvotes c = Z.of_nat (size (voters st k)) ∧
    voters st k !! submitter c = None;
  inv_votes : ∀ k u b, voters st k !! u = Some b →
    b = true ∧ 1 ≤ k ≤ ctiCounter st
}.

(** Every recorded voter is a 160-bit address. *)
Definition voters_are_addresses (st : state) : Prop :=
  ∀ k u b, voters st k !! u = Some b → is_address u.

(** ** Sample transactions and states *)

Definition alice : env := {| msg_sender := 10; block_timestamp := 1000 |}.
Definition bob : env := {| msg_sender := 11; block_timestamp := 1001 |}.

(** Three submissions by [alice], then a downvote on record 2 by [bob]. *)
Definition sample_txs : list transaction :=
  [ mkTx alice (SubmitCTI "QmHash1" "Malware" "T1");
    mkTx alice (SubmitCTI "QmHash2" "Phishing" "T2");
    mkTx alice (SubmitCTI "QmHash3" "Ransomware" "T3");
    mkTx bob (VoteCTI 2 false) ].

Definition sample_state : state := run initial_state sample_txs.

(** The sample storage with record 2 flagged inactive: no call produces
    it, but it is a well-formed record set for the listing to run on. *)
Definition sample_state_inactive : state :=
  {| ctiCounter := ctiCounter sample_state;
     ctiRecords :=
       <[2 := {| id := 2; submitter := 10; ipfsHash := "QmHash2";
                 category := "Phishing"; title := "T2"; timestamp := 1000;
                 upvotes := 0; downvotes := 1; isActive := false |}]>
         (ctiRecords sample_state);
     hasVoted := hasVoted sample_state;
     userSubmissions := userSubmissions sample_state |}.

(** ** Getters of public state variables

    [mapping(uint256 => CTI) public ctiRecords] and
    [mapping(address => uint256) public userSubmissions] make the compiler
    emit the external view functions [ctiRecords(uint256)] and
    [userSubmissions(address)]: plain reads of the mapping, without any
    modifier. *)


Definition get_userSubmissions (st : state) (_user : Z) : result Z :=
  Ok (submissions_of st _user).

(** ** Further vocabulary for the properties of the contract *)

(** The assigned ids whose record names [_user] as submitter, ascending. *)
Definition submitted_by (st : state) (_user : Z) : list Z :=
  filter (λ k, submitter (record_at st k) = _user) (seqZ 1 (ctiCounter st)).

(** What [submitCTI] stores under key [k] when called in a well-typed
    context. *)
Definition record_wf (k : Z) (c : CTI) : Prop :=
  id c = k ∧ is_address (submitter c) ∧
  ipfsHash c ≠ "" ∧ category c ≠ "" ∧ title c ≠ "" ∧
  is_uint256 (timestamp c) ∧ isActive c = true.

(** The fields of a record that no function writes after creation. *)
Definition same_identity (c c' : CTI) : Prop :=
  id c' = id c ∧ submitter c' = submitter c ∧ ipfsHash c' = ipfsHash c ∧
  category c' = category c ∧ title c' = title c ∧
  timestamp c' = timestamp c ∧ isActive c' = isActive c.

(** ** The event log *)

(** Events logged by one transaction: an aborted call logs nothing. *)
Definition tx_events (st : state) (tx : transaction) : list event :=
  match call_contract (tx_env tx) (tx_call tx) st with
  | Ok (_, evs, _) => evs
  | Err _ => []
  end.

(** Events logged by the transactions [txs], run in order from [st]. *)
Fixpoint event_log (st : state) (txs : list transaction) : list event :=
  match txs with
  | [] => []
  | tx :: txs' => tx_events st tx ++ event_log (step st tx) txs'
  end.

Definition is_vote_on (k : Z) (up : bool) (ev : event) : bool :=
  match ev with
  | CTIVoted i _ b => bool_decide (i = k) && bool_decide (b = up)
  | _ => false
  end.

(** Number of [CTIVoted(k, _, up)] events in a log. *)
Definition count_votes (k : Z) (up : bool) (log : list event) : Z :=
  Z.of_nat (length (filter (λ ev, is_vote_on k up ev = true) log)).

(** The ids of the [CTISubmitted] events of a log, in log order. *)
Definition submitted_ids (log : list event) : list Z :=
  omap (λ ev, match ev with
              | CTISubmitted i _ _ _ _ => Some i
              | _ => None
              end) log.

(** * Proofs *)

(** ** Inversion of the error monad *)

Lemma bind_Ok_inv {A B : Type} (r : result A) (f : A → result B) (b : B) :
  r ≫= f = Ok b → ∃ a, r = Ok a ∧ f a = Ok b.
Proof. destruct r as [a|e]; simpl; [eauto | discriminate]. Qed.

Lemma require_Ok_inv cond reason u : require cond reason = Ok u → cond = true.
Proof. unfold require. destruct cond; [done | discriminate]. Qed.

Lemma require_true reason : require true reason = Ok ().
Proof. reflexivity. Qed.

Lemma require_false reason : require false reason = Err (Revert reason).
Proof. reflexivity. Qed.

Lemma checked_inc_Ok_inv x y : checked_inc x = Ok y → x < MAX_UINT256 ∧ y = x + 1.
Proof.
  unfold checked_inc. case_bool_decide; [|discriminate].
  intros [= <-]. done.
Qed.

Lemma checked_inc_lt x : x < MAX_UINT256 → checked_inc x = Ok (x + 1).
Proof. intros Hx. unfold checked_inc. by rewrite bool_decide_eq_true_2. Qed.

Lemma checked_inc_max : checked_inc MAX_UINT256 = Err (Panic PANIC_ARITHMETIC).
Proof. unfold checked_inc. by rewrite bool_decide_eq_false_2 by lia. Qed.

Lemma checked_inc_cases x :
  checked_inc x = Ok (x + 1) ∨ checked_inc x = Err (Panic PANIC_ARITHMETIC).
Proof. unfold checked_inc. case_bool_decide; auto. Qed.

Ltac inv_result :=
  repeat match goal with
  | H : _ ≫= _ = Ok _ |- _ =>
      apply bind_Ok_inv in H; destruct H as (? & ? & H)
  | H : require _ _ = Ok _ |- _ => apply require_Ok_inv in H
  | H : checked_inc _ = Ok _ |- _ =>
      apply checked_inc_Ok_inv in H; destruct H as [? ?]
  | H : Ok _ = Ok _ |- _ => injection H as H
  | H : Err _ = Ok _ |- _ => discriminate H
  end.

Lemma validCTI_Ok st _id :
  1 ≤ _id ≤ ctiCounter st → isActive (record_at st _id) = true →
  validCTI st _id = Ok ().
Proof.
  intros Hr Ha. unfold validCTI.
  rewrite !bool_decide_eq_true_2 by lia. simpl. by rewrite Ha.
Qed.

Lemma validCTI_Ok_inv st _id u :
  validCTI st _id = Ok u →
  1 ≤ _id ≤ ctiCounter st ∧ isActive (record_at st _id) = true.
Proof.
  unfold validCTI. intros H. inv_result.
  apply andb_true_iff in H0 as [H1 H2].
  apply bool_decide_eq_true in H1, H2. split; [lia | done].
Qed.

Lemma validCTI_not_exist st _id :
  ¬ (1 ≤ _id ≤ ctiCounter st) → validCTI st _id = Err (Revert "CTI does not exist").
Proof.
  intros Hr. unfold validCTI.
  destruct (bool_decide (_id > 0) && bool_decide (_id ≤ ctiCounter st)) eqn:E; [|done].
  apply andb_true_iff in E as [H1 H2].
  apply bool_decide_eq_true in H1, H2. lia.
Qed.

Lemma validCTI_not_active st _id :
  1 ≤ _id ≤ ctiCounter st → isActive (record_at st _id) = false →
  validCTI st _id = Err (Revert "CTI is not active").
Proof.
  intros Hr Ha. unfold validCTI.
  rewrite !bool_decide_eq_true_2 by lia. simpl. by rewrite Ha.
Qed.

(** ** Argument validation *)

Lemma step_Err st tx e :
  call_contract (tx_env tx) (tx_call tx) st = Err e → step st tx = st.
Proof. intros H. unfold step. by rewrite H. Qed.

Lemma submitCTI_empty_message e h c t st :
  h = "" ∨ c = "" ∨ t = "" →
  ∃ reason, submitCTI e h c t st = Err (Revert reason) ∧
            error_kind (Revert reason) = Some InvalidArgument.
Proof.
  intros Hempty. unfold submitCTI.
  destruct h as [|a h].
  { eexists. split; [reflexivity | reflexivity]. }
  destruct c as [|b c].
  { eexists. split; [reflexivity | reflexivity]. }
  destruct t as [|d t].
  { eexists. split; [reflexivity | reflexivity]. }
  destruct Hempty as [?|[?|?]]; discriminate.
Qed.

(** C4: a [submitCTI] call with an empty [_ipfsHash], [_category] or
    [_title] fails with an [InvalidArgument] error and leaves the whole
    storage as it was: the counter, the records and the submitter's
    submission count are those of the pre-state. *)
Theorem submitCTI_empty_rejected e h c t st :
  h = "" ∨ c = "" ∨ t = "" →
  fails_with (submitCTI e h c t st) InvalidArgument ∧
  fails_with (call_contract e (SubmitCTI h c t) st) InvalidArgument ∧
  step st (mkTx e (SubmitCTI h c t)) = st.
Proof.
  intros Hempty.
  destruct (submitCTI_empty_message e h c t st Hempty) as (reason & Hs & Hk).
  assert (Hc : call_contract e (SubmitCTI h c t) st = Err (Revert reason)).
  { simpl. by rewrite Hs. }
  split; [by exists (Revert reason) |].
  split; [by exists (Revert reason) |].
  by apply step_Err with (e := Revert reason).
Qed.

Lemma submitCTI_empty_rejected_witness :
  let st := step initial_state (mkTx (mkEnv 7 100) (SubmitCTI "Qm" "Malware" "T")) in
  fails_with (submitCTI (mkEnv 7 101) "" "Malware" "Title" st) InvalidArgument ∧
  fails_with (call_contract (mkEnv 7 101) (SubmitCTI "" "Malware" "Title") st)
             InvalidArgument ∧
  step st (mkTx (mkEnv 7 101) (SubmitCTI "" "Malware" "Title")) = st.
Proof.
  apply (submitCTI_empty_rejected (mkEnv 7 101) "" "Malware" "Title").
  left. reflexivity.
Defined.

(** C9: [getActiveCTIs] with a limit outside [1, 100] fails with the
    [InvalidArgument] error "Invalid limit", whatever the offset and the
    storage, and so returns no array. *)
Theorem getActiveCTIs_invalid_limit st _limit _offset :
  ¬ (1 ≤ _limit ≤ 100) →
  getActiveCTIs st _limit _offset = Err (Revert "Invalid limit") ∧
  fails_with (getActiveCTIs st _limit _offset) InvalidArgument ∧
  fails_with (call_contract (mkEnv 0 0) (GetActiveCTIs _limit _offset) st)
             InvalidArgument.
Proof.
  intros Hl.
  assert (H : getActiveCTIs st _limit _offset = Err (Revert "Invalid limit")).
  { unfold getActiveCTIs.
    destruct (bool_decide (_limit > 0) && bool_decide (_limit ≤ 100)) eqn:E; [|done].
    apply andb_true_iff in E as [H1 H2].
    apply bool_decide_eq_true in H1, H2. lia. }
  split; [done |].
  split.
  - exists (Revert "Invalid limit"). by split.
  - exists (Revert "Invalid limit"). simpl. rewrite H. by split.
Qed.

Lemma getActiveCTIs_invalid_limit_witness :
  (getActiveCTIs initial_state 0 0 = Err (Revert "Invalid limit") ∧
   fails_with (getActiveCTIs initial_state 0 0) InvalidArgument ∧
   fails_with (call_contract (mkEnv 0 0) (GetActiveCTIs 0 0) initial_state)
              InvalidArgument) ∧
  (getActiveCTIs initial_state 101 0 = Err (Revert "Invalid limit") ∧
   fails_with (getActiveCTIs initial_state 101 0) InvalidArgument ∧
   fails_with (call_contract (mkEnv 0 0) (GetActiveCTIs 101 0) initial_state)
              InvalidArgument).
Proof.
  split.
  - apply (getActiveCTIs_invalid_limit initial_state 0 0). lia.
  - apply (getActiveCTIs_invalid_limit initial_state 101 0). lia.
Defined.

(** ** Order of the checks of [voteCTI] *)

Lemma voteCTI_after_checks e _id up st :
  validCTI st _id = Ok () →
  voted_at st _id (msg_sender e) = false →
  submitter (record_at st _id) ≠ msg_sender e →
  (∃ out, voteCTI e _id up st = Ok out) ∨
  voteCTI e _id up st = Err (Panic PANIC_ARITHMETIC).
Proof.
  intros Hv Hn Hs. unfold voteCTI, hasNotVoted.
  rewrite Hv, Hn. simpl.
  rewrite bool_decide_eq_false_2 by done. simpl.
  destruct up.
  - destruct (checked_inc_cases (upvotes (record_at st _id))) as [-> | ->];
      simpl; eauto.
  - destruct (checked_inc_cases (downvotes (record_at st _id))) as [-> | ->];
      simpl; eauto.
Qed.

(** C3: [voteCTI] checks existence, then activity, then a prior vote of the
    caller, then a vote on one's own record, and stops at the first check
    that fails.  The error is the one the specification's ordered list of
    preconditions gives: "CTI does not exist" and "CTI is not active" (both
    [NotFound]), "Already voted on this CTI" ([AlreadyVoted]), "Cannot vote
    on own submission" ([SelfVoteForbidden]).  When all four hold the call
    fails with none of these errors. *)
Theorem voteCTI_check_order e _id up st :
  match spec_vote_failure st (msg_sender e) _id with
  | Some k =>
      fails_with (voteCTI e _id up st) k ∧
      voteCTI e _id up st =
        Err (Revert
          (if negb (bool_decide (1 ≤ _id ≤ ctiCounter st)) then "CTI does not exist"
           else if negb (isActive (record_at st _id)) then "CTI is not active"
           else if voted_at st _id (msg_sender e) then "Already voted on this CTI"
           else "Cannot vote on own submission"))
  | None =>
      (∀ k, ¬ fails_with (voteCTI e _id up st) k) ∧
      ((∃ out, voteCTI e _id up st = Ok out) ∨
       voteCTI e _id up st = Err (Panic PANIC_ARITHMETIC))
  end.
Proof.
  unfold spec_vote_failure.
  case_bool_decide as Hr; simpl.
  2:{ assert (H := validCTI_not_exist st _id Hr).
      unfold voteCTI. rewrite H. simpl.
      split; [|done]. eexists. split; [reflexivity | reflexivity]. }
  destruct (isActive (record_at st _id)) eqn:Ha; simpl.
  2:{ assert (H := validCTI_not_active st _id Hr Ha).
      unfold voteCTI. rewrite H. simpl.
      split; [|done]. eexists. split; [reflexivity | reflexivity]. }
  assert (Hv := validCTI_Ok st _id Hr Ha).
  destruct (voted_at st _id (msg_sender e)) eqn:Hn; simpl.
  { unfold voteCTI, hasNotVoted. rewrite Hv, Hn. simpl.
    split; [|done]. eexists. split; [reflexivity | reflexivity]. }
  case_bool_decide as Hs; simpl.
  { unfold voteCTI, hasNotVoted. rewrite Hv, Hn. simpl.
    rewrite bool_decide_eq_true_2 by done. simpl.
    split; [|done]. eexists. split; [reflexivity | reflexivity]. }
  assert (H := voteCTI_after_checks e _id up st Hv Hn Hs).
  split; [|done].
  intros k (err & Herr & Hk).
  destruct H as [[out H] | H]; rewrite H in Herr.
  - discriminate.
  - injection Herr as <-. discriminate.
Qed.

(** ** Reachable storage satisfies the invariant *)

Lemma map_size_0_lookup {A : Type} (m : gmap Z A) :
  (∀ k, m !! k = None) → size m = 0%nat.
Proof. intros H. apply map_size_empty_iff. by apply map_empty. Qed.

Lemma registry_inv_initial : registry_inv initial_state.
Proof.
  split; simpl.
  - unfold MAX_UINT256. lia.
  - intros k. rewrite lookup_empty. split; [by intros [? ?] | lia].
  - by rewrite map_size_empty.
  - intros k c. by rewrite lookup_empty.
  - intros k u b. unfold voters. simpl. by rewrite lookup_empty.
Qed.

Lemma voters_unassigned st k u :
  registry_inv st → ¬ (1 ≤ k ≤ ctiCounter st) → voters st k !! u = None.
Proof.
  intros Hinv Hk. destruct (voters st k !! u) as [b|] eqn:E; [|done].
  apply (inv_votes st Hinv) in E. lia.
Qed.

Lemma voted_at_false_None st k u :
  registry_inv st → voted_at st k u = false → voters st k !! u = None.
Proof.
  intros Hinv Hv. unfold voted_at in Hv. fold (voters st k) in Hv.
  destruct (voters st k !! u) as [b|] eqn:E; [|done].
  apply (inv_votes st Hinv) in E as [-> _]. done.
Qed.

Lemma record_at_Some st k :
  registry_inv st → 1 ≤ k ≤ ctiCounter st →
  ctiRecords st !! k = Some (record_at st k).
Proof.
  intros Hinv Hk. apply (inv_assigned st Hinv) in Hk as [c Hc].
  unfold record_at. by rewrite Hc.
Qed.

Lemma submitCTI_preserves_inv e h c t st st' evs :
  registry_inv st →
  submitCTI e h c t st = Ok (st', evs) → registry_inv st'.
Proof.
  intros Hinv H. unfold submitCTI in H. inv_result. subst.
  pose proof (inv_counter st Hinv) as Hc.
  assert (Hfresh : ctiRecords st !! (ctiCounter st + 1) = None).
  { apply eq_None_not_Some. rewrite (inv_assigned st Hinv). lia. }
  split; simpl.
  - lia.
  - intros k. destruct (decide (k = ctiCounter st + 1)) as [-> | Hne].
    + rewrite lookup_insert_eq. split; [lia | eauto].
    + rewrite lookup_insert_ne by done. rewrite (inv_assigned st Hinv). lia.
  - rewrite map_size_insert_None by done.
    pose proof (inv_size st Hinv). lia.
  - intros k r. destruct (decide (k = ctiCounter st + 1)) as [-> | Hne].
    + rewrite lookup_insert_eq. intros [= <-]. simpl.
      assert (Hnone : ∀ u, voters st (ctiCounter st + 1) !! u = None).
      { intros u. apply voters_unassigned; [done | lia]. }
      unfold voters in *. simpl.
      rewrite (map_size_0_lookup _ Hnone).
      repeat split; (done || lia).
    + rewrite lookup_insert_ne by done. apply (inv_record st Hinv).
  - intros k u b Hk. unfold voters in Hk. simpl in Hk.
    apply (inv_votes st Hinv) in Hk as (? & ?).
    split; [done | lia].
Qed.

Lemma voteCTI_Ok_inv e _id up st st' evs :
  voteCTI e _id up st = Ok (st', evs) →
  (1 ≤ _id ≤ ctiCounter st ∧ isActive (record_at st _id) = true) ∧
  voted_at st _id (msg_sender e) = false ∧
  submitter (record_at st _id) ≠ msg_sender e ∧
  (if up then upvotes (record_at st _id) else downvotes (record_at st _id))
    < MAX_UINT256 ∧
  st' = {| ctiCounter := ctiCounter st;
           ctiRecords :=
             <[_id := if up
                      then set_upvotes (record_at st _id)
                                       (upvotes (record_at st _id) + 1)
                      else set_downvotes (record_at st _id)
                                         (downvotes (record_at st _id) + 1)]>
               (ctiRecords st);
           hasVoted := <[_id := <[msg_sender e := true]> (voters st _id)]> (hasVoted st);
           userSubmissions := userSubmissions st |} ∧
  evs = [CTIVoted _id (msg_sender e) up].
Proof.
  unfold voteCTI, hasNotVoted. intros H.
  apply bind_Ok_inv in H as ([] & Hv & H).
  apply bind_Ok_inv in H as ([] & Hn & H).
  apply bind_Ok_inv in H as ([] & Hs & H).
  apply bind_Ok_inv in H as (cti & Hc & H).
  apply validCTI_Ok_inv in Hv.
  apply require_Ok_inv, negb_true_iff in Hn.
  apply require_Ok_inv, negb_true_iff, bool_decide_eq_false in Hs.
  injection H as <- <-.
  destruct up; apply bind_Ok_inv in Hc as (v & Hi & Hc);
    apply checked_inc_Ok_inv in Hi as [Hlt ->]; injection Hc as <-; done.
Qed.

Lemma voteCTI_preserves_inv e _id up st st' evs :
  registry_inv st →
  voteCTI e _id up st = Ok (st', evs) → registry_inv st'.
Proof.
  intros Hinv H.
  apply voteCTI_Ok_inv in H as ([Hr Ha] & Hn & Hne & Hlt & -> & _).
  pose proof (record_at_Some st _id Hinv Hr) as Hrec.
  pose proof (voted_at_false_None st _id _ Hinv Hn) as Hnone.
  pose proof (inv_record st Hinv _ _ Hrec) as (Hid & _ & Hup & Hdn & Hsum & Hself).
  unfold voters in Hnone, Hsum, Hself.
  split; simpl.
  - apply (inv_counter st Hinv).
  - intros k. rewrite <- (inv_assigned st Hinv).
    destruct (decide (k = _id)) as [-> | Hk].
    + rewrite lookup_insert_eq, Hrec. split; eauto.
    + by rewrite lookup_insert_ne.
  - rewrite map_size_insert_Some by eauto. apply (inv_size st Hinv).
  - intros k c. unfold voters. simpl.
    destruct (decide (k = _id)) as [-> | Hk].
    + rewrite !lookup_insert_eq. simpl.
      rewrite map_size_insert_None by done.
      intros [= <-]. destruct up; simpl;
        (repeat split; [done | done | lia | lia | lia
                       | by rewrite lookup_insert_ne]).
    + rewrite !lookup_insert_ne by done. apply (inv_record st Hinv).
  - intros k u b. unfold voters. simpl.
    destruct (decide (k = _id)) as [-> | Hk].
    + rewrite lookup_insert_eq. simpl.
      destruct (decide (u = msg_sender e)) as [-> | Hu].
      * rewrite lookup_insert_eq. intros [= <-]. done.
      * rewrite lookup_insert_ne by done. intros Hu'.
        apply (inv_votes st Hinv _id u b) in Hu' as [? _]. done.
    + rewrite lookup_insert_ne by done. apply (inv_votes st Hinv).
Qed.

Lemma view_Ok_inv {A : Type} st (wrap : A → returndata) (r : result A) st' evs ret :
  view st wrap r = Ok (st', evs, ret) →
  st' = st ∧ evs = [] ∧ ∃ a, r = Ok a ∧ ret = wrap a.
Proof.
  unfold view. intros H. apply bind_Ok_inv in H as (a & Hr & H).
  injection H as <- <- <-. eauto.
Qed.

Lemma call_contract_preserves_inv e c st st' evs ret :
  registry_inv st →
  call_contract e c st = Ok (st', evs, ret) → registry_inv st'.
Proof.
  intros Hinv H. destruct c; unfold call_contract in H;
    try (apply view_Ok_inv in H as (-> & _ & _); exact Hinv).
  - apply bind_Ok_inv in H as ([st1 evs1] & Hsub & H). injection H as <- <- <-.
    by eapply submitCTI_preserves_inv.
  - apply bind_Ok_inv in H as ([st1 evs1] & Hv & H). injection H as <- <- <-.
    by eapply voteCTI_preserves_inv.
Qed.

Lemma step_preserves_inv st tx :
  registry_inv st → registry_inv (step st tx).
Proof.
  intros Hinv. unfold step.
  destruct (call_contract (tx_env tx) (tx_call tx) st) as [[[st' evs] ret]|err] eqn:E;
    [|done].
  by eapply call_contract_preserves_inv.
Qed.

Lemma reachable_inv st : reachable st → registry_inv st.
Proof.
  induction 1 as [|st tx _ IH Hwf].
  - apply registry_inv_initial.
  - by apply step_preserves_inv.
Qed.

Lemma run_inv st txs : registry_inv st → registry_inv (run st txs).
Proof.
  revert st. induction txs as [|tx txs IH]; intros st Hinv; [done |].
  simpl. by apply IH, step_preserves_inv.
Qed.

Lemma run_reachable st txs :
  reachable st → Forall wf_tx txs → reachable (run st txs).
Proof.
  revert st. induction txs as [|tx txs IH]; intros st Hr Hwf; [done |].
  apply Forall_cons in Hwf as [Htx Hwf].
  simpl. apply IH; [by constructor | done].
Qed.

(** ** Tallies are bounded by the number of addresses *)

Lemma address_map_size (m : gmap Z bool) :
  (∀ u b, m !! u = Some b → is_address u) →
  Z.of_nat (size m) ≤ MAX_ADDRESS + 1.
Proof.
  intros Hm.
  assert (Hsub : (map_to_list m).*1 ⊆+ seqZ 0 (MAX_ADDRESS + 1)).
  { apply NoDup_submseteq; [apply NoDup_fst_map_to_list |].
    intros u Hu. apply list_elem_of_fmap in Hu as ([u' b] & -> & Hu).
    apply elem_of_map_to_list in Hu. apply Hm in Hu.
    apply elem_of_seqZ. unfold is_address in Hu. simpl. lia. }
  apply submseteq_length in Hsub.
  rewrite length_fmap, length_map_to_list, length_seqZ in Hsub.
  assert (0 ≤ MAX_ADDRESS + 1) by (unfold MAX_ADDRESS; lia).
  lia.
Qed.

Lemma voters_are_addresses_initial : voters_are_addresses initial_state.
Proof. intros k u b. unfold voters. simpl. by rewrite lookup_empty. Qed.

Lemma step_preserves_voters st tx :
  voters_are_addresses st → wf_tx tx → voters_are_addresses (step st tx).
Proof.
  intros Hva (Hs & _ & _). unfold step.
  destruct (call_contract (tx_env tx) (tx_call tx) st) as [[[st' evs] ret]|err] eqn:E;
    [|done].
  destruct (tx_call tx); unfold call_contract in E;
    try (apply view_Ok_inv in E as (-> & _ & _); exact Hva).
  - apply bind_Ok_inv in E as ([st1 evs1] & Hsub & E). injection E as <- <- <-.
    unfold submitCTI in Hsub. inv_result. subst.
    intros k u b. unfold voters. simpl. apply Hva.
  - apply bind_Ok_inv in E as ([st1 evs1] & Hv & E). injection E as <- <- <-.
    apply voteCTI_Ok_inv in Hv as (_ & _ & _ & _ & -> & _).
    intros k u b. unfold voters at 1. simpl.
    destruct (decide (k = _id)) as [-> | Hk].
    + rewrite lookup_insert_eq. simpl.
      destruct (decide (u = msg_sender (tx_env tx))) as [-> | Hu]; [done |].
      rewrite lookup_insert_ne by done. apply Hva.
    + rewrite lookup_insert_ne by done. apply Hva.
Qed.

Lemma reachable_voters st : reachable st → voters_are_addresses st.
Proof.
  induction 1 as [|st tx _ IH Hwf].
  - apply voters_are_addresses_initial.
  - by apply step_preserves_voters.
Qed.

Lemma reachable_tallies st k :
  reachable st → 1 ≤ k ≤ ctiCounter st →
  0 ≤ upvotes (record_at st k) ∧ 0 ≤ downvotes (record_at st k) ∧
  upvotes (record_at st k) + downvotes (record_at st k) ≤ MAX_ADDRESS + 1.
Proof.
  intros Hr Hk.
  pose proof (reachable_inv st Hr) as Hinv.
  pose proof (record_at_Some st k Hinv Hk) as Hrec.
  apply (inv_record st Hinv) in Hrec as (_ & _ & Hup & Hdn & Hsum & _).
  pose proof (address_map_size (voters st k)
                (λ u b, reachable_voters st Hr k u b)) as Hsize.
  lia.
Qed.

(** ** The scan of [getActiveCTICount] *)

Lemma getActiveCTICount_loop_correct st :
  ctiCounter st < MAX_UINT256 →
  ∀ gas i count,
    1 ≤ i ≤ ctiCounter st + 1 → 0 ≤ count < i →
    (Z.to_nat (ctiCounter st + 1 - i) ≤ gas)%nat →
    getActiveCTICount_loop gas st i count =
      Ok (count + Z.of_nat (length (filter (λ k, isActive (record_at st k) = true)
                                           (seqZ i (ctiCounter st + 1 - i))))).
Proof.
  intros Hmax gas. induction gas as [|gas IH]; intros i count Hi Hc Hgas.
  - assert (i = ctiCounter st + 1) as -> by lia.
    simpl. rewrite bool_decide_eq_false_2 by lia.
    rewrite seqZ_nil by lia. simpl. f_equal. lia.
  - simpl. case_bool_decide as Hle.
    + rewrite (seqZ_cons i) by lia.
      replace (Z.succ i) with (i + 1) by lia.
      replace (Z.pred (ctiCounter st + 1 - i)) with (ctiCounter st + 1 - (i + 1)) by lia.
      rewrite (checked_inc_lt i) by lia.
      destruct (isActive (record_at st i)) eqn:Ha.
      * rewrite (checked_inc_lt count) by lia. simpl.
        rewrite IH by lia.
        rewrite filter_cons_True by done. simpl length.
        f_equal. lia.
      * simpl. rewrite IH by lia.
        rewrite filter_cons_False by (by rewrite Ha).
        done.
    + rewrite seqZ_nil by lia. simpl. f_equal. lia.
Qed.

Lemma getActiveCTICount_counts st :
  0 ≤ ctiCounter st < MAX_UINT256 →
  getActiveCTICount st = Ok (Z.of_nat (length (active_ids_desc st))).
Proof.
  intros Hc. unfold getActiveCTICount.
  rewrite getActiveCTICount_loop_correct by lia.
  replace (ctiCounter st + 1 - 1) with (ctiCounter st) by lia.
  unfold active_ids_desc, active_ids_upto.
  by rewrite filter_reverse, length_reverse.
Qed.

(** With the budget the model grants, a scan up to [2^256 - 1] ends in the
    overflow of the loop variable.  No execution gets that far; the lemma
    only serves to compare two calls on the same storage. *)
Lemma getActiveCTICount_loop_overflow st :
  ctiCounter st = MAX_UINT256 →
  ∀ gas i count,
    1 ≤ i ≤ MAX_UINT256 → 0 ≤ count < i →
    (Z.to_nat (MAX_UINT256 + 1 - i) ≤ gas)%nat →
    getActiveCTICount_loop gas st i count = Err (Panic PANIC_ARITHMETIC).
Proof.
  intros Hmax gas. induction gas as [|gas IH]; intros i count Hi Hc Hgas; [lia |].
  simpl. rewrite bool_decide_eq_true_2 by lia.
  destruct (decide (i = MAX_UINT256)) as [-> | Hne].
  - rewrite checked_inc_max.
    destruct (isActive (record_at st MAX_UINT256)); [|done].
    by destruct (checked_inc_cases count) as [-> | ->].
  - rewrite (checked_inc_lt i) by lia.
    destruct (isActive (record_at st i)).
    + rewrite (checked_inc_lt count) by lia. simpl. apply IH; lia.
    + simpl. apply IH; lia.
Qed.

(** ** Every assigned record is active *)

Lemma reachable_all_active st k :
  reachable st → 1 ≤ k ≤ ctiCounter st → isActive (record_at st k) = true.
Proof.
  intros Hr Hk. apply reachable_inv in Hr.
  pose proof (record_at_Some st k Hr Hk) as Hrec.
  by apply (inv_record st Hr) in Hrec as (_ & Ha & _).
Qed.

Lemma filter_all {A : Type} (P : A → Prop) `{∀ x, Decision (P x)} (l : list A) :
  (∀ x, x ∈ l → P x) → filter P l = l.
Proof.
  induction l as [|x l IH]; intros HP; [done |].
  rewrite filter_cons_True by (apply HP; left).
  f_equal. apply IH. intros y Hy. apply HP. by right.
Qed.

Lemma reachable_active_ids st :
  reachable st → active_ids_desc st = reverse (seqZ 1 (ctiCounter st)).
Proof.
  intros Hr. unfold active_ids_desc, active_ids_upto. apply filter_all.
  intros k Hk. apply elem_of_reverse, elem_of_seqZ in Hk.
  apply reachable_all_active; [done | lia].
Qed.

(** ** The two loops of [getActiveCTIs] *)

Lemma active_ids_upto_nil st i : i ≤ 0 → active_ids_upto st i = [].
Proof. intros Hi. unfold active_ids_upto. by rewrite seqZ_nil. Qed.

Lemma active_ids_upto_step st i :
  0 < i →
  active_ids_upto st i =
    if isActive (record_at st i)
    then i :: active_ids_upto st (i - 1)
    else active_ids_upto st (i - 1).
Proof.
  intros Hi. unfold active_ids_upto.
  replace i with ((i - 1) + 1) at 1 by lia.
  rewrite seqZ_app by lia.
  replace (1 + (i - 1)) with i by lia.
  rewrite (seqZ_cons i 1) by lia. rewrite (seqZ_nil (Z.succ i)) by done.
  rewrite reverse_snoc.
  destruct (isActive (record_at st i)) eqn:Ha.
  - by rewrite filter_cons_True.
  - rewrite filter_cons_False; [done | by rewrite Ha].
Qed.

Lemma take_S_insert {A : Type} (l : list A) (n : nat) (x : A) :
  (n < length l)%nat → take (S n) (<[n := x]> l) = take n l ++ [x].
Proof.
  intros Hn. rewrite (take_S_r _ _ x) by (by apply list_lookup_insert_eq).
  by rewrite take_insert_ge.
Qed.

Section ActiveScan.
Variable st : state.
Variables _limit _offset : Z.
Hypothesis limit_uint256 : _limit ≤ MAX_UINT256.

Local Abbreviation scan_tail := (scan_rest st _limit _offset).

Lemma scan_tail_exit i count cur :
  ¬ (i > 0 ∧ count < _limit) → 0 ≤ i → count ≤ _limit →
  scan_tail i count cur = [].
Proof.
  intros Hexit Hi Hc. unfold scan_rest.
  destruct (decide (i > 0)) as [Hpos | Hzero].
  - replace (Z.to_nat (_limit - count)) with 0%nat by lia. apply take_0.
  - rewrite active_ids_upto_nil by lia. by rewrite drop_nil, take_nil.
Qed.

Lemma scan_tail_inactive i count cur :
  0 < i → isActive (record_at st i) = false →
  scan_tail i count cur = scan_tail (i - 1) count cur.
Proof.
  intros Hi Ha. unfold scan_rest.
  by rewrite (active_ids_upto_step st i), Ha.
Qed.

Lemma scan_tail_skip i count cur :
  0 < i → isActive (record_at st i) = true → cur < _offset →
  scan_tail i count cur = scan_tail (i - 1) count (cur + 1).
Proof.
  intros Hi Ha Hcur. unfold scan_rest.
  rewrite (active_ids_upto_step st i), Ha by done.
  replace (Z.to_nat (_offset - cur)) with (S (Z.to_nat (_offset - (cur + 1)))) by lia.
  done.
Qed.

Lemma scan_tail_store i count cur :
  0 < i → isActive (record_at st i) = true → cur >= _offset → count < _limit →
  scan_tail i count cur = i :: scan_tail (i - 1) (count + 1) (cur + 1).
Proof.
  intros Hi Ha Hcur Hc. unfold scan_rest.
  rewrite (active_ids_upto_step st i), Ha by done.
  replace (Z.to_nat (_offset - cur)) with 0%nat by lia.
  replace (Z.to_nat (_offset - (cur + 1))) with 0%nat by lia.
  replace (Z.to_nat (_limit - count)) with (S (Z.to_nat (_limit - (count + 1)))) by lia.
  done.
Qed.

Lemma getActiveCTIs_scan_correct gas :
  ∀ i activeCTIs count cur,
    0 ≤ i → (Z.to_nat i ≤ gas)%nat →
    0 ≤ count ≤ _limit → length activeCTIs = Z.to_nat _limit →
    0 ≤ cur → cur + i ≤ MAX_UINT256 →
    ∃ activeCTIs',
      getActiveCTIs_scan gas st _limit _offset i activeCTIs count cur =
        Ok (activeCTIs', count + Z.of_nat (length (scan_tail i count cur))) ∧
      length activeCTIs' = length activeCTIs ∧
      take (Z.to_nat (count + Z.of_nat (length (scan_tail i count cur)))) activeCTIs' =
        take (Z.to_nat count) activeCTIs ++ scan_tail i count cur.
Proof.
  assert (Hexit : ∀ g i arr count cur,
    ¬ (i > 0 ∧ count < _limit) → 0 ≤ i → 0 ≤ count ≤ _limit →
    ∃ arr',
      getActiveCTIs_scan g st _limit _offset i arr count cur =
        Ok (arr', count + Z.of_nat (length (scan_tail i count cur))) ∧
      length arr' = length arr ∧
      take (Z.to_nat (count + Z.of_nat (length (scan_tail i count cur)))) arr' =
        take (Z.to_nat count) arr ++ scan_tail i count cur).
  { intros g i arr count cur Hex Hi Hc.
    rewrite scan_tail_exit by (done || lia). exists arr.
    assert (bool_decide (i > 0) && bool_decide (count < _limit) = false) as Hb.
    { apply andb_false_iff.
      destruct (decide (i > 0)); [right | left]; apply bool_decide_eq_false_2; lia. }
    split; [|split].
    - destruct g; simpl; rewrite Hb; do 2 f_equal; simpl; lia.
    - done.
    - simpl. rewrite Z.add_0_r. by rewrite app_nil_r. }
  induction gas as [|gas IH]; intros i arr count cur Hi Hgas Hc Hlen Hcur Hmax.
  { apply Hexit; lia. }
  destruct (decide (i > 0 ∧ count < _limit)) as [[Hpos Hlt] | Hex];
    [| apply Hexit; (done || lia)].
  simpl. rewrite !bool_decide_eq_true_2 by done. simpl.
  destruct (isActive (record_at st i)) eqn:Ha.
  - rewrite (checked_inc_lt cur) by lia.
    case_bool_decide as Hoff.
    + unfold array_set. rewrite bool_decide_eq_true_2 by lia.
      rewrite (checked_inc_lt count) by lia. simpl.
      destruct (IH (i - 1) (<[Z.to_nat count := i]> arr) (count + 1) (cur + 1))
        as (arr' & Hrun & Hlen' & Htake); try lia.
      { rewrite length_insert. lia. }
      exists arr'. rewrite scan_tail_store by (done || lia). simpl length.
      rewrite Hrun. split; [do 2 f_equal; lia |].
      split; [by rewrite Hlen', length_insert |].
      replace (Z.to_nat (count + Z.of_nat (S (length (scan_tail (i - 1) (count + 1) (cur + 1))))))
        with (Z.to_nat (count + 1 + Z.of_nat (length (scan_tail (i - 1) (count + 1) (cur + 1)))))
        by lia.
      rewrite Htake.
      replace (Z.to_nat (count + 1)) with (S (Z.to_nat count)) by lia.
      rewrite take_S_insert by lia. by rewrite <- app_assoc.
    + simpl.
      destruct (IH (i - 1) arr count (cur + 1))
        as (arr' & Hrun & Hlen' & Htake); try lia.
      exists arr'. rewrite scan_tail_skip by (done || lia). by rewrite Hrun.
  - simpl.
    destruct (IH (i - 1) arr count cur) as (arr' & Hrun & Hlen' & Htake); try lia.
    exists arr'. rewrite scan_tail_inactive by (done || lia). by rewrite Hrun.
Qed.

End ActiveScan.

Lemma getActiveCTIs_copy_correct activeCTIs count :
  0 ≤ count ≤ Z.of_nat (length activeCTIs) → count < MAX_UINT256 →
  ∀ gas i result_,
    0 ≤ i ≤ count → (Z.to_nat (count - i) ≤ gas)%nat →
    length result_ = Z.to_nat count →
    getActiveCTIs_copy gas activeCTIs count i result_ =
      Ok (take (Z.to_nat i) result_ ++
          take (Z.to_nat (count - i)) (drop (Z.to_nat i) activeCTIs)).
Proof.
  intros Hcount Hmax gas.
  induction gas as [|gas IH]; intros i res Hi Hgas Hlen.
  - assert (i = count) as -> by lia. simpl.
    rewrite bool_decide_eq_false_2 by lia.
    rewrite take_ge by lia. rewrite Z.sub_diag. simpl. by rewrite app_nil_r.
  - simpl. case_bool_decide as Hlt.
    + destruct (lookup_lt_is_Some_2 activeCTIs (Z.to_nat i)) as [v Hv]; [lia |].
      unfold array_get, array_set. rewrite Hv. simpl.
      rewrite bool_decide_eq_true_2 by lia. simpl.
      rewrite (checked_inc_lt i) by lia. simpl.
      rewrite IH by (rewrite ?length_insert; lia).
      replace (Z.to_nat (i + 1)) with (S (Z.to_nat i)) by lia.
      rewrite take_S_insert by lia.
      rewrite (drop_S activeCTIs v (Z.to_nat i)) by done.
      replace (Z.to_nat (count - i)) with (S (Z.to_nat (count - (i + 1)))) by lia.
      simpl. by rewrite <- app_assoc.
    + assert (i = count) as -> by lia.
      rewrite take_ge by lia. rewrite Z.sub_diag. simpl. by rewrite app_nil_r.
Qed.

Lemma getActiveCTIs_refines st _limit _offset :
  is_uint256 (ctiCounter st) → 1 ≤ _limit ≤ 100 → 0 ≤ _offset →
  getActiveCTIs st _limit _offset = Ok (spec_listActive st _limit _offset).
Proof.
  intros [Hc0 Hc1] Hl Ho. unfold getActiveCTIs.
  rewrite !bool_decide_eq_true_2 by lia. simpl.
  assert (Hlim : _limit ≤ MAX_UINT256) by (unfold MAX_UINT256; lia).
  destruct (getActiveCTIs_scan_correct st _limit _offset Hlim
              (Z.to_nat (ctiCounter st)) (ctiCounter st) (new_array _limit) 0 0)
    as (arr & Hrun & Hlen & Htake); try lia.
  { unfold new_array. by rewrite length_replicate. }
  rewrite Hrun. simpl.
  set (T := scan_rest st _limit _offset (ctiCounter st) 0 0) in *.
  assert (HT : (length T ≤ Z.to_nat _limit)%nat).
  { unfold T, scan_rest. rewrite length_take. lia. }
  unfold new_array in Hlen. rewrite length_replicate in Hlen.
  rewrite getActiveCTIs_copy_correct.
  - simpl. rewrite Z.sub_0_r.
    replace (Z.to_nat (0 + Z.of_nat (length T))) with (length T) in * by lia.
    change (Z.to_nat 0) with 0%nat in *. rewrite drop_0, Htake. simpl.
    unfold T, scan_rest, spec_listActive, active_ids_desc.
    by rewrite !Z.sub_0_r.
  - lia.
  - unfold MAX_UINT256. lia.
  - lia.
  - lia.
  - unfold new_array. rewrite length_replicate. lia.
Qed.

(** ** Pagination *)

Lemma active_ids_upto_spec st i k :
  k ∈ active_ids_upto st i ↔ 1 ≤ k ≤ i ∧ isActive (record_at st k) = true.
Proof.
  unfold active_ids_upto.
  rewrite list_elem_of_filter, elem_of_reverse, elem_of_seqZ.
  split; intros; split; (tauto || lia).
Qed.

Lemma active_ids_upto_sorted st i :
  StronglySorted (λ a b, b < a) (active_ids_upto st i).
Proof.
  remember (Z.to_nat i) as n eqn:Hn. revert i Hn.
  induction n as [|n IH]; intros i Hn.
  - rewrite active_ids_upto_nil by lia. constructor.
  - rewrite active_ids_upto_step by lia.
    destruct (isActive (record_at st i)); [|apply IH; lia].
    constructor; [apply IH; lia |].
    apply Forall_forall. intros k Hk.
    apply active_ids_upto_spec in Hk. lia.
Qed.

Lemma active_ids_upto_NoDup st i : NoDup (active_ids_upto st i).
Proof.
  unfold active_ids_upto. apply NoDup_filter.
  rewrite reverse_Permutation. apply NoDup_seqZ.
Qed.

Lemma spec_listActive_length st _limit _offset :
  0 ≤ _limit → 0 ≤ _offset →
  Z.of_nat (length (spec_listActive st _limit _offset)) =
    Z.min _limit (Z.max 0 (Z.of_nat (length (active_ids_desc st)) - _offset)).
Proof.
  intros Hl Ho. unfold spec_listActive.
  rewrite length_take, length_drop. lia.
Qed.

Lemma fetch_pages_take st _limit :
  is_uint256 (ctiCounter st) → 1 ≤ _limit ≤ 100 →
  ∀ n _offset, 0 ≤ _offset →
    fetch_pages st _limit _offset n =
      Ok (take (n * Z.to_nat _limit) (drop (Z.to_nat _offset) (active_ids_desc st))).
Proof.
  intros Hc Hl n. induction n as [|n IH]; intros _offset Ho; [done |].
  simpl. rewrite getActiveCTIs_refines by done. simpl.
  rewrite IH by lia. simpl. f_equal.
  unfold spec_listActive. rewrite <- take_take_drop, drop_drop.
  do 3 f_equal. lia.
Qed.

(** C2: for a limit in [1, 100] and an offset [≥ 0], [getActiveCTIs]
    returns the slice [[offset, offset + limit)] of the active record ids
    taken in descending id order.  That sequence holds exactly the ids in
    [1 .. ctiCounter] whose record is active, each once and in strictly
    descending order, so inactive records use up neither offset nor limit;
    the page has [min limit (max 0 (active - offset))] entries; and the
    pages fetched at offsets 0, limit, 2*limit, ... concatenate to a prefix
    of the sequence, which is the whole sequence once the pages cover its
    length. *)
Theorem getActiveCTIs_pagination st _limit _offset :
  is_uint256 (ctiCounter st) → 1 ≤ _limit ≤ 100 → 0 ≤ _offset →
  getActiveCTIs st _limit _offset = Ok (spec_listActive st _limit _offset) ∧
  Z.of_nat (length (spec_listActive st _limit _offset)) =
    Z.min _limit (Z.max 0 (Z.of_nat (length (active_ids_desc st)) - _offset)) ∧
  (∀ k, k ∈ active_ids_desc st ↔
        1 ≤ k ≤ ctiCounter st ∧ isActive (record_at st k) = true) ∧
  NoDup (active_ids_desc st) ∧
  StronglySorted (λ a b, b < a) (active_ids_desc st) ∧
  ∀ n : nat,
    fetch_pages st _limit 0 n =
      Ok (take (n * Z.to_nat _limit) (active_ids_desc st)) ∧
    ((length (active_ids_desc st) ≤ n * Z.to_nat _limit)%nat →
     fetch_pages st _limit 0 n = Ok (active_ids_desc st)).
Proof.
  intros Hc Hl Ho.
  split; [by apply getActiveCTIs_refines |].
  split; [apply spec_listActive_length; lia |].
  split; [intros k; apply active_ids_upto_spec |].
  split; [apply active_ids_upto_NoDup |].
  split; [apply active_ids_upto_sorted |].
  intros n.
  assert (Hp := fetch_pages_take st _limit Hc Hl n 0 (Z.le_refl 0)).
  change (Z.to_nat 0) with 0%nat in Hp. rewrite drop_0 in Hp.
  split; [done |].
  intros Hcover. by rewrite Hp, take_ge.
Qed.

(** ** Score *)

Lemma int256_of_small x : 0 ≤ x ≤ MAX_ADDRESS + 1 → int256_of_uint256 x = x.
Proof.
  intros Hx. unfold int256_of_uint256.
  rewrite bool_decide_eq_true_2; [done |].
  unfold MAX_INT256, MAX_ADDRESS in *. lia.
Qed.

Lemma getCTIScore_exact st _id :
  reachable st →
  1 ≤ _id ≤ ctiCounter st → isActive (record_at st _id) = true →
  getCTIScore st _id =
    Ok (upvotes (record_at st _id) - downvotes (record_at st _id)).
Proof.
  intros Hr Hid Ha.
  pose proof (reachable_tallies st _id Hr Hid) as (Hup & Hdn & Hsum).
  unfold getCTIScore. rewrite validCTI_Ok by done. simpl.
  rewrite !int256_of_small by lia.
  unfold checked_sub_int256. rewrite bool_decide_eq_true_2; [done |].
  unfold MIN_INT256, MAX_INT256, MAX_ADDRESS in *. lia.
Qed.

(** C7: [getCTIScore] has the precondition of [getCTI].  On every storage,
    an id outside [1 .. ctiCounter] makes both fail with "CTI does not
    exist" and an assigned id with an inactive record makes both fail with
    "CTI is not active", each a [NotFound] error; on an assigned id with
    an active record [getCTI] returns the record and [getCTIScore] fails
    with no error of the specification, and returns the signed difference
    [upvotes - downvotes] of that record, possibly negative, whenever both
    tallies fit the positive range of [int256].  In a reachable state they
    always do, being bounded by the number of addresses: there
    [getCTIScore] returns [upvotes - downvotes] of the record that [getCTI]
    returns for every assigned id. *)
Theorem getCTIScore_identity st _id :
  (¬ (1 ≤ _id ≤ ctiCounter st) →
   getCTI st _id = Err (Revert "CTI does not exist") ∧
   getCTIScore st _id = Err (Revert "CTI does not exist") ∧
   fails_with (getCTI st _id) NotFound ∧
   fails_with (getCTIScore st _id) NotFound) ∧
  (1 ≤ _id ≤ ctiCounter st → isActive (record_at st _id) = false →
   getCTI st _id = Err (Revert "CTI is not active") ∧
   getCTIScore st _id = Err (Revert "CTI is not active") ∧
   fails_with (getCTI st _id) NotFound ∧
   fails_with (getCTIScore st _id) NotFound) ∧
  (1 ≤ _id ≤ ctiCounter st → isActive (record_at st _id) = true →
   getCTI st _id = Ok (record_at st _id) ∧
   (∀ k, ¬ fails_with (getCTIScore st _id) k) ∧
   (0 ≤ upvotes (record_at st _id) ≤ MAX_INT256 →
    0 ≤ downvotes (record_at st _id) ≤ MAX_INT256 →
    getCTIScore st _id =
      Ok (upvotes (record_at st _id) - downvotes (record_at st _id)))) ∧
  (reachable st → 1 ≤ _id ≤ ctiCounter st →
   getCTI st _id = Ok (record_at st _id) ∧
   getCTIScore st _id =
     Ok (upvotes (record_at st _id) - downvotes (record_at st _id))).
Proof.
  split; [|split; [|split]].
  - intros Hid. unfold getCTI, getCTIScore.
    rewrite validCTI_not_exist by done. simpl.
    split; [done |]. split; [done |].
    split; by exists (Revert "CTI does not exist").
  - intros Hid Ha. unfold getCTI, getCTIScore.
    rewrite validCTI_not_active by done. simpl.
    split; [done |]. split; [done |].
    split; by exists (Revert "CTI is not active").
  - intros Hid Ha. unfold getCTI, getCTIScore.
    rewrite validCTI_Ok by done. simpl.
    split; [done |]. split.
    + intros k (e & He & Hk). unfold checked_sub_int256 in He.
      case_bool_decide; [discriminate He |].
      injection He as <-. discriminate Hk.
    + intros Hup Hdn. unfold int256_of_uint256.
      rewrite !bool_decide_eq_true_2 by lia.
      unfold checked_sub_int256. rewrite bool_decide_eq_true_2; [done |].
      unfold MIN_INT256, MAX_INT256 in *. lia.
  - intros Hr Hid.
    pose proof (reachable_all_active st _id Hr Hid) as Ha.
    split; [|by apply getCTIScore_exact].
    unfold getCTI. by rewrite validCTI_Ok.
Qed.

(** ** Voting on one's own record *)

(** C6: in a reachable state, a [voteCTI] call on an assigned, active record
    by that record's submitter fails with "Cannot vote on own submission"
    ([SelfVoteForbidden]): the submitter never holds a vote on the record,
    so the earlier duplicate-vote check cannot fire first.  The storage,
    and with it both tallies, is left as it was. *)
Theorem voteCTI_self_vote_forbidden st e _id up :
  reachable st →
  1 ≤ _id ≤ ctiCounter st → isActive (record_at st _id) = true →
  msg_sender e = submitter (record_at st _id) →
  voteCTI e _id up st = Err (Revert "Cannot vote on own submission") ∧
  fails_with (voteCTI e _id up st) SelfVoteForbidden ∧
  step st (mkTx e (VoteCTI _id up)) = st ∧
  upvotes (record_at (step st (mkTx e (VoteCTI _id up))) _id)
    = upvotes (record_at st _id) ∧
  downvotes (record_at (step st (mkTx e (VoteCTI _id up))) _id)
    = downvotes (record_at st _id).
Proof.
  intros Hr Hid Ha Hself.
  pose proof (reachable_inv st Hr) as Hinv.
  pose proof (record_at_Some st _id Hinv Hid) as Hrec.
  apply (inv_record st Hinv) in Hrec as (_ & _ & _ & _ & _ & Hnone).
  assert (Hv : voteCTI e _id up st = Err (Revert "Cannot vote on own submission")).
  { unfold voteCTI, hasNotVoted. rewrite validCTI_Ok by done. simpl.
    unfold voted_at. fold (voters st _id). rewrite Hself, Hnone. simpl.
    by rewrite bool_decide_eq_true_2. }
  assert (Hs : step st (mkTx e (VoteCTI _id up)) = st).
  { unfold step. simpl. by rewrite Hv. }
  split; [done |].
  split; [by exists (Revert "Cannot vote on own submission") |].
  by rewrite Hs.
Qed.

(** ** What a step can change *)

Lemma submitCTI_Ok_inv e h c t st st' evs :
  submitCTI e h c t st = Ok (st', evs) →
  ctiCounter st < MAX_UINT256 ∧
  st' = {| ctiCounter := ctiCounter st + 1;
           ctiRecords :=
             <[ctiCounter st + 1 :=
                 {| id := ctiCounter st + 1; submitter := msg_sender e;
                    ipfsHash := h; category := c; title := t;
                    timestamp := block_timestamp e;
                    upvotes := 0; downvotes := 0; isActive := true |}]>
               (ctiRecords st);
           hasVoted := hasVoted st;
           userSubmissions :=
             <[msg_sender e := submissions_of st (msg_sender e) + 1]>
               (userSubmissions st) |} ∧
  evs = [CTISubmitted (ctiCounter st + 1) (msg_sender e) h c t].
Proof.
  unfold submitCTI. intros H. inv_result. by subst.
Qed.

Lemma call_contract_Ok_cases e c st st' evs ret :
  call_contract e c st = Ok (st', evs, ret) →
  (∃ h cat t, c = SubmitCTI h cat t ∧ submitCTI e h cat t st = Ok (st', evs) ∧
              ret = RetNone) ∨
  (∃ i up, c = VoteCTI i up ∧ voteCTI e i up st = Ok (st', evs) ∧ ret = RetNone) ∨
  (st' = st ∧ evs = [] ∧
   match c with SubmitCTI _ _ _ | VoteCTI _ _ => False | _ => True end).
Proof.
  intros H. destruct c; unfold call_contract in H;
    try (apply view_Ok_inv in H as (-> & -> & _); by right; right).
  - apply bind_Ok_inv in H as ([st1 evs1] & Hs & H). injection H as <- <- <-.
    left. by exists _ipfsHash, _category, _title.
  - apply bind_Ok_inv in H as ([st1 evs1] & Hv & H). injection H as <- <- <-.
    right; left. by exists _id, _isUpvote.
Qed.

Lemma record_at_insert st' st i c k :
  ctiRecords st' = <[i := c]> (ctiRecords st) →
  record_at st' k = if decide (k = i) then c else record_at st k.
Proof.
  intros H. unfold record_at. rewrite H.
  destruct (decide (k = i)) as [-> | Hk].
  - by rewrite lookup_insert_eq.
  - by rewrite lookup_insert_ne.
Qed.

Lemma record_at_submit e h c t st st' evs k :
  submitCTI e h c t st = Ok (st', evs) → k ≤ ctiCounter st →
  record_at st' k = record_at st k.
Proof.
  intros H Hk. apply submitCTI_Ok_inv in H as (_ & -> & _).
  unfold record_at. simpl. by rewrite lookup_insert_ne by lia.
Qed.

Lemma record_at_vote e i up st st' evs k :
  voteCTI e i up st = Ok (st', evs) →
  id (record_at st' k) = id (record_at st k) ∧
  submitter (record_at st' k) = submitter (record_at st k) ∧
  isActive (record_at st' k) = isActive (record_at st k) ∧
  upvotes (record_at st k) ≤ upvotes (record_at st' k) ∧
  downvotes (record_at st k) ≤ downvotes (record_at st' k).
Proof.
  intros H. apply voteCTI_Ok_inv in H as (_ & _ & _ & _ & -> & _).
  match goal with
  | |- context [record_at (mkState ?a ?b ?c ?d) k] => set (st' := mkState a b c d)
  end.
  rewrite (record_at_insert st' st i _ k eq_refl).
  destruct (decide (k = i)) as [-> | Hk].
  - destruct up; simpl; repeat split; (done || lia).
  - repeat split; (done || lia).
Qed.

Lemma voted_at_vote e i up st st' evs k v :
  voteCTI e i up st = Ok (st', evs) →
  voted_at st k v = true → voted_at st' k v = true.
Proof.
  intros H Hv. apply voteCTI_Ok_inv in H as (_ & _ & _ & _ & -> & _).
  unfold voted_at in *. simpl.
  destruct (decide (k = i)) as [-> | Hk].
  - rewrite lookup_insert_eq. simpl.
    destruct (decide (v = msg_sender e)) as [-> | Hne].
    + by rewrite lookup_insert_eq.
    + by rewrite lookup_insert_ne.
  - by rewrite lookup_insert_ne.
Qed.

Lemma step_counter_mono st tx : ctiCounter st ≤ ctiCounter (step st tx).
Proof.
  unfold step.
  destruct (call_contract (tx_env tx) (tx_call tx) st) as [[[st' evs] ret]|err] eqn:E;
    [|done].
  apply call_contract_Ok_cases in E
    as [(h & c & t & _ & H & _) | [(i & up & _ & H & _) | [-> _]]].
  - apply submitCTI_Ok_inv in H as (_ & -> & _). simpl. lia.
  - apply voteCTI_Ok_inv in H as (_ & _ & _ & _ & -> & _). done.
  - done.
Qed.

(** A vote once recorded on an assigned, active record stays recorded, and
    the record stays assigned and active, whatever is called next. *)
Lemma step_keeps_vote st tx k v :
  1 ≤ k ≤ ctiCounter st → isActive (record_at st k) = true →
  voted_at st k v = true →
  1 ≤ k ≤ ctiCounter (step st tx) ∧
  isActive (record_at (step st tx) k) = true ∧
  voted_at (step st tx) k v = true.
Proof.
  intros Hk Ha Hv.
  pose proof (step_counter_mono st tx) as Hmono.
  split; [lia |]. unfold step in *.
  destruct (call_contract (tx_env tx) (tx_call tx) st) as [[[st' evs] ret]|err] eqn:E;
    [|done].
  apply call_contract_Ok_cases in E
    as [(h & c & t & _ & H & _) | [(i & up & _ & H & _) | [-> _]]].
  - rewrite (record_at_submit _ _ _ _ _ _ _ k H) by lia.
    apply submitCTI_Ok_inv in H as (_ & -> & _). done.
  - destruct (record_at_vote _ _ _ _ _ _ k H) as (_ & _ & -> & _).
    split; [done |]. by eapply voted_at_vote.
  - done.
Qed.

Lemma run_keeps_vote txs : ∀ st k v,
  1 ≤ k ≤ ctiCounter st → isActive (record_at st k) = true →
  voted_at st k v = true →
  1 ≤ k ≤ ctiCounter (run st txs) ∧
  isActive (record_at (run st txs) k) = true ∧
  voted_at (run st txs) k v = true.
Proof.
  induction txs as [|tx txs IH]; intros st k v Hk Ha Hv; [done |].
  destruct (step_keeps_vote st tx k v Hk Ha Hv) as (Hk' & Ha' & Hv').
  simpl. by apply IH.
Qed.

(** ** Exactly-once voting *)

(** C5: once [voteCTI] has succeeded for a voter on an id, every later
    [voteCTI] call of that voter on that id, whatever calls were made in
    between, fails with "Already voted on this CTI" ([AlreadyVoted]) and
    leaves the storage, and with it both tallies of the record, as it was
    before the failed call. *)
Theorem voteCTI_second_vote_rejected st e _id up st1 evs txs e' up' :
  voteCTI e _id up st = Ok (st1, evs) →
  msg_sender e' = msg_sender e →
  voteCTI e' _id up' (run st1 txs) = Err (Revert "Already voted on this CTI") ∧
  fails_with (voteCTI e' _id up' (run st1 txs)) AlreadyVoted ∧
  step (run st1 txs) (mkTx e' (VoteCTI _id up')) = run st1 txs ∧
  upvotes (record_at (step (run st1 txs) (mkTx e' (VoteCTI _id up'))) _id)
    = upvotes (record_at (run st1 txs) _id) ∧
  downvotes (record_at (step (run st1 txs) (mkTx e' (VoteCTI _id up'))) _id)
    = downvotes (record_at (run st1 txs) _id).
Proof.
  intros Hvote Hsender.
  assert (Hpost : 1 ≤ _id ≤ ctiCounter st1 ∧
                  isActive (record_at st1 _id) = true ∧
                  voted_at st1 _id (msg_sender e) = true).
  { destruct (record_at_vote _ _ _ _ _ _ _id Hvote) as (_ & _ & Hact & _).
    apply voteCTI_Ok_inv in Hvote as ([Hr Ha] & _ & _ & _ & -> & _).
    rewrite Hact. split; [simpl; lia |]. split; [done |].
    unfold voted_at. simpl. rewrite lookup_insert_eq. simpl.
    by rewrite lookup_insert_eq. }
  destruct Hpost as (Hr & Ha & Hv).
  destruct (run_keeps_vote txs st1 _id (msg_sender e) Hr Ha Hv) as (Hr' & Ha' & Hv').
  assert (H : voteCTI e' _id up' (run st1 txs)
              = Err (Revert "Already voted on this CTI")).
  { unfold voteCTI, hasNotVoted. rewrite validCTI_Ok by done. simpl.
    by rewrite Hsender, Hv'. }
  assert (Hs : step (run st1 txs) (mkTx e' (VoteCTI _id up')) = run st1 txs).
  { unfold step. simpl. by rewrite H. }
  split; [done |].
  split; [by exists (Revert "Already voted on this CTI") |].
  by rewrite Hs.
Qed.

(** ** Sequential ids *)

Lemma step_counter st tx :
  ctiCounter (step st tx) =
    ctiCounter st +
    match tx_call tx, call_contract (tx_env tx) (tx_call tx) st with
    | SubmitCTI _ _ _, Ok _ => 1
    | _, _ => 0
    end.
Proof.
  unfold step.
  destruct (call_contract (tx_env tx) (tx_call tx) st) as [[[st' evs] ret]|err] eqn:E.
  - apply call_contract_Ok_cases in E
      as [(h & c & t & -> & H & _) | [(i & up & -> & H & _) | (-> & _ & Hc)]].
    + by apply submitCTI_Ok_inv in H as (_ & -> & _).
    + apply voteCTI_Ok_inv in H as (_ & _ & _ & _ & -> & _). simpl. lia.
    + destruct (tx_call tx); (done || lia).
  - destruct (tx_call tx); lia.
Qed.

Lemma run_counter txs : ∀ st,
  ctiCounter (run st txs) = ctiCounter st + successful_submits st txs.
Proof.
  induction txs as [|tx txs IH]; intros st.
  - change (run st []) with st. simpl. lia.
  - change (run st (tx :: txs)) with (run (step st tx) txs).
    rewrite IH, step_counter. simpl. by rewrite Z.add_assoc.
Qed.

(** C1 (as amended): [submitCTI] declares no return value, so a successful
    call returns no data; the id it allocates is observable as the new
    [ctiCounter], as the key and [id] field of the new record and in the
    [CTISubmitted] event.  After any sequence of calls from deployment the
    records are exactly those at ids [1 .. ctiCounter], [ctiCounter] equals
    both their number and the number of successful submissions so far, and
    the next successful submission, the nth, allocates id n: one more than
    the number of records. *)
Theorem nth_submit_allocates_n txs :
  let st := run initial_state txs in
  let n := successful_submits initial_state txs + 1 in
  (Z.of_nat (size (ctiRecords st)) + 1 = n ∧
   ctiCounter st + 1 = n ∧
   ∀ k, is_Some (ctiRecords st !! k) ↔ 1 ≤ k ≤ ctiCounter st) ∧
  ∀ e h c t st' evs ret,
    call_contract e (SubmitCTI h c t) st = Ok (st', evs, ret) →
    ret = RetNone ∧
    evs = [CTISubmitted n (msg_sender e) h c t] ∧
    ctiCounter st' = n ∧
    ctiRecords st' !! n =
      Some {| id := n; submitter := msg_sender e; ipfsHash := h;
              category := c; title := t; timestamp := block_timestamp e;
              upvotes := 0; downvotes := 0; isActive := true |} ∧
    Z.of_nat (size (ctiRecords st')) = n.
Proof.
  intros st n.
  assert (Hinv : registry_inv st) by apply run_inv, registry_inv_initial.
  assert (Hn : ctiCounter st + 1 = n).
  { unfold st, n. rewrite run_counter. simpl. lia. }
  split.
  - split; [|split; [done |]].
    + rewrite (inv_size st Hinv). done.
    + apply (inv_assigned st Hinv).
  - intros e h c t st' evs ret H.
    apply call_contract_Ok_cases in H
      as [(h' & c' & t' & [= <- <- <-] & H & ->) | [(i & up & [=] & _) | (_ & _ & [])]].
    assert (Hinv' : registry_inv st') by (by eapply submitCTI_preserves_inv).
    pose proof (inv_size st' Hinv') as Hsize.
    apply submitCTI_Ok_inv in H as (_ & -> & ->). simpl in *.
    rewrite Hn. rewrite Hn in Hsize.
    repeat split; try done. by rewrite lookup_insert_eq.
Qed.

Lemma nth_submit_allocates_n_witness :
  call_contract bob (SubmitCTI "QmHash4" "Botnet" "T4") (run initial_state sample_txs)
    = Ok (step sample_state (mkTx bob (SubmitCTI "QmHash4" "Botnet" "T4")),
          [CTISubmitted 4 11 "QmHash4" "Botnet" "T4"], RetNone) ∧
  successful_submits initial_state sample_txs + 1 = 4 ∧
  ctiCounter (step sample_state (mkTx bob (SubmitCTI "QmHash4" "Botnet" "T4"))) = 4.
Proof.
  assert (Hcall :
    call_contract bob (SubmitCTI "QmHash4" "Botnet" "T4") (run initial_state sample_txs)
      = Ok (step sample_state (mkTx bob (SubmitCTI "QmHash4" "Botnet" "T4")),
            [CTISubmitted 4 11 "QmHash4" "Botnet" "T4"], RetNone))
    by reflexivity.
  split; [exact Hcall |].
  split; [reflexivity |].
  exact (proj1 (proj2 (proj2 (proj2 (nth_submit_allocates_n sample_txs)
                                      _ _ _ _ _ _ _ Hcall)))).
Defined.

(** C1 is false as stated: the first successful [submitCTI] call returns no
    data, so it does not return the id 1. *)
Lemma first_submit_returns_no_id :
  let r := call_contract alice (SubmitCTI "QmHash1" "Malware" "T1") initial_state in
  (∃ st' evs, r = Ok (st', evs, RetNone)) ∧
  ¬ (∃ st' evs, r = Ok (st', evs, RetUint 1)).
Proof.
  split.
  - eexists _, _. reflexivity.
  - intros (st' & evs & H). vm_compute in H. discriminate H.
Qed.

(** ** No record is ever deactivated *)

Lemma step_keeps_active st tx k :
  isActive (record_at st k) = true → isActive (record_at (step st tx) k) = true.
Proof.
  intros Ha. unfold step.
  destruct (call_contract (tx_env tx) (tx_call tx) st) as [[[st' evs] ret]|err] eqn:E;
    [|done].
  apply call_contract_Ok_cases in E
    as [(h & c & t & _ & H & _) | [(i & up & _ & H & _) | (-> & _)]].
  - apply submitCTI_Ok_inv in H as (_ & -> & _).
    match goal with
    | |- context [record_at (mkState ?a ?b ?c ?d) k] => set (st' := mkState a b c d)
    end.
    rewrite (record_at_insert st' st (ctiCounter st + 1) _ k eq_refl).
    by destruct (decide (k = ctiCounter st + 1)).
  - by destruct (record_at_vote _ _ _ _ _ _ k H) as (_ & _ & -> & _).
  - done.
Qed.

Lemma no_deactivation_event e c st st' evs ret k :
  call_contract e c st = Ok (st', evs, ret) → CTIDeactivated k ∉ evs.
Proof.
  intros H.
  apply call_contract_Ok_cases in H
    as [(h & cat & t & _ & H & _) | [(i & up & _ & H & _) | (_ & -> & _)]].
  - apply submitCTI_Ok_inv in H as (_ & _ & ->).
    intros Hin. apply list_elem_of_singleton in Hin. discriminate.
  - apply voteCTI_Ok_inv in H as (_ & _ & _ & _ & _ & ->).
    intros Hin. apply list_elem_of_singleton in Hin. discriminate.
  - apply not_elem_of_nil.
Qed.

Lemma successful_submits_le txs : ∀ st,
  successful_submits st txs ≤ Z.of_nat (length txs).
Proof.
  induction txs as [|tx txs IH]; intros st; [done |].
  pose proof (IH (step st tx)) as Hrest. simpl successful_submits.
  replace (Z.of_nat (length (tx :: txs))) with (1 + Z.of_nat (length txs))
    by (simpl length; lia).
  repeat case_match; lia.
Qed.

(** C10: a record is created with [isActive = true], no call clears the
    flag and no call emits [CTIDeactivated].  Hence in every reachable
    state every assigned id has an active record and the guards of
    [getCTI], [getCTIScore], [voteCTI] and [getActiveCTIs] exclude no
    assigned id; and after every history of fewer than [2^256 - 1]
    transactions, indeed in every reachable state whose counter is below
    that bound, [getActiveCTICount] returns [ctiCounter], the number of
    assigned ids. *)
Theorem reachable_records_all_active st :
  reachable st →
  (∀ tx k, isActive (record_at st k) = true →
           isActive (record_at (step st tx) k) = true) ∧
  (∀ e c st' evs ret k,
     call_contract e c st = Ok (st', evs, ret) → CTIDeactivated k ∉ evs) ∧
  (∀ k, 1 ≤ k ≤ ctiCounter st →
     isActive (record_at st k) = true ∧
     validCTI st k = Ok () ∧
     getCTI st k = Ok (record_at st k) ∧
     getCTIScore st k = Ok (upvotes (record_at st k) - downvotes (record_at st k)) ∧
     ∀ e up, ¬ fails_with (voteCTI e k up st) NotFound) ∧
  active_ids_desc st = reverse (seqZ 1 (ctiCounter st)) ∧
  (∀ _limit _offset, 1 ≤ _limit ≤ 100 → 0 ≤ _offset →
     getActiveCTIs st _limit _offset =
       Ok (take (Z.to_nat _limit)
                (drop (Z.to_nat _offset) (reverse (seqZ 1 (ctiCounter st)))))) ∧
  (ctiCounter st < MAX_UINT256 → getActiveCTICount st = Ok (ctiCounter st)) ∧
  (∀ txs, st = run initial_state txs →
          Z.of_nat (length txs) < MAX_UINT256 →
          getActiveCTICount st = Ok (ctiCounter st)).
Proof.
  intros Hr.
  pose proof (reachable_inv st Hr) as Hinv.
  pose proof (inv_counter st Hinv) as Hc.
  pose proof (reachable_active_ids st Hr) as Hids.
  assert (Hcount : ctiCounter st < MAX_UINT256 →
                   getActiveCTICount st = Ok (ctiCounter st)).
  { intros Hlt. rewrite getActiveCTICount_counts by lia.
    rewrite Hids, length_reverse, length_seqZ. f_equal. lia. }
  split; [intros tx k; apply step_keeps_active |].
  split; [intros e c st' evs ret k; apply no_deactivation_event |].
  split; [|split; [done |split; [|split; [done |]]]].
  3:{ intros txs -> Hlen. apply Hcount.
      rewrite run_counter. change (ctiCounter initial_state) with 0.
      pose proof (successful_submits_le txs initial_state). lia. }
  - intros k Hk.
    pose proof (reachable_all_active st k Hr Hk) as Ha.
    pose proof (validCTI_Ok st k Hk Ha) as Hv.
    pose proof (getCTIScore_exact st k Hr Hk Ha) as Hsc.
    assert (Hget : getCTI st k = Ok (record_at st k)).
    { unfold getCTI. by rewrite Hv. }
    repeat split; try done.
    intros e up (err & Herr & Hkind).
    unfold voteCTI in Herr. rewrite Hv in Herr. simpl in Herr.
    unfold hasNotVoted, require in Herr.
    destruct (negb (voted_at st k (msg_sender e))); simpl in Herr;
      [|injection Herr as <-; discriminate].
    destruct (negb (bool_decide (submitter (record_at st k) = msg_sender e)));
      simpl in Herr; [|injection Herr as <-; discriminate].
    destruct up.
    + destruct (checked_inc_cases (upvotes (record_at st k))) as [Hi | Hi];
        rewrite Hi in Herr; simpl in Herr;
        [discriminate | injection Herr as <-; discriminate].
    + destruct (checked_inc_cases (downvotes (record_at st k))) as [Hi | Hi];
        rewrite Hi in Herr; simpl in Herr;
        [discriminate | injection Herr as <-; discriminate].
  - intros _limit _offset Hl Ho.
    rewrite getActiveCTIs_refines by done.
    unfold spec_listActive. by rewrite Hids.
Qed.

(** ** [hasUserVoted] has no precondition *)

Lemma reachable_invalid_not_voted st _id _user :
  reachable st →
  ¬ (1 ≤ _id ≤ ctiCounter st) ∨ isActive (record_at st _id) = false →
  voted_at st _id _user = false.
Proof.
  intros Hr Hid.
  destruct (decide (1 ≤ _id ≤ ctiCounter st)) as [Hin | Hout].
  - destruct Hid as [? | Ha]; [done |].
    by rewrite reachable_all_active in Ha.
  - unfold voted_at. fold (voters st _id).
    by rewrite (voters_unassigned st _id _user (reachable_inv st Hr) Hout).
Qed.

(** C8: [hasUserVoted] never fails.  For an id outside the assigned range,
    or an inactive one, with no vote of [_user] recorded (as is always the
    case for such an id in a reachable state), it returns [false], whereas
    [getCTI] and [voteCTI] fail with [NotFound] on the same id. *)
Theorem hasUserVoted_no_precondition e st _id _user up :
  ¬ (1 ≤ _id ≤ ctiCounter st) ∨ isActive (record_at st _id) = false →
  voted_at st _id _user = false ∨ reachable st →
  hasUserVoted st _id _user = Ok false ∧
  call_contract e (HasUserVoted _id _user) st = Ok (st, [], RetBool false) ∧
  fails_with (getCTI st _id) NotFound ∧
  fails_with (voteCTI e _id up st) NotFound.
Proof.
  intros Hid Hvr.
  assert (Hv : voted_at st _id _user = false).
  { destruct Hvr as [? | Hr]; [done |]. by apply reachable_invalid_not_voted. }
  assert (Hh : hasUserVoted st _id _user = Ok false).
  { unfold hasUserVoted. by rewrite Hv. }
  split; [done |].
  split; [unfold call_contract; by rewrite Hh |].
  assert (Hn : ∃ reason, validCTI st _id = Err (Revert reason) ∧
                         error_kind (Revert reason) = Some NotFound).
  { destruct (decide (1 ≤ _id ≤ ctiCounter st)) as [Hr | Hr].
    - destruct Hid as [? | Ha]; [done |].
      eexists. split; [by apply validCTI_not_active | reflexivity].
    - eexists. split; [by apply validCTI_not_exist | reflexivity]. }
  destruct Hn as (reason & Hval & Hk).
  split.
  - exists (Revert reason). unfold getCTI. rewrite Hval. by split.
  - exists (Revert reason). unfold voteCTI. rewrite Hval. by split.
Qed.

(** Closed range goals are settled by evaluation. *)
Ltac solve_range :=
  unfold is_address, is_uint256, MAX_ADDRESS, MAX_UINT256;
  vm_compute; repeat split; discriminate.

Ltac solve_wf :=
  repeat (apply Forall_cons; split); try apply Forall_nil;
  unfold wf_tx, wf_call; cbn [tx_env tx_call msg_sender block_timestamp];
  repeat split; solve_range.

Lemma sample_state_reachable : reachable sample_state.
Proof.
  unfold sample_state. apply run_reachable; [constructor |].
  unfold sample_txs. solve_wf.
Qed.

Lemma hasUserVoted_no_precondition_witness :
  (hasUserVoted sample_state 999 11 = Ok false ∧
   call_contract bob (HasUserVoted 999 11) sample_state
     = Ok (sample_state, [], RetBool false) ∧
   fails_with (getCTI sample_state 999) NotFound ∧
   fails_with (voteCTI bob 999 true sample_state) NotFound) ∧
  (hasUserVoted sample_state_inactive 2 12 = Ok false ∧
   call_contract bob (HasUserVoted 2 12) sample_state_inactive
     = Ok (sample_state_inactive, [], RetBool false) ∧
   fails_with (getCTI sample_state_inactive 2) NotFound ∧
   fails_with (voteCTI bob 2 true sample_state_inactive) NotFound).
Proof.
  split.
  - apply (hasUserVoted_no_precondition bob sample_state 999 11 true).
    + left. intros [_ H]. vm_compute in H. apply H. reflexivity.
    + right. apply sample_state_reachable.
  - apply (hasUserVoted_no_precondition bob sample_state_inactive 2 12 true).
    + right. reflexivity.
    + left. reflexivity.
Defined.

(** ** The theorems at the sample states *)

Lemma getActiveCTIs_pagination_witness :
  getActiveCTIs sample_state_inactive 1 1 = Ok [1] ∧
  spec_listActive sample_state_inactive 1 1 = [1] ∧
  active_ids_desc sample_state_inactive = [3; 1] ∧
  fetch_pages sample_state_inactive 1 0 2 = Ok [3; 1].
Proof.
  assert (Hc : is_uint256 (ctiCounter sample_state_inactive)) by solve_range.
  assert (Hl : 1 ≤ 1 ≤ 100) by lia.
  assert (Ho : 0 ≤ 1) by lia.
  destruct (getActiveCTIs_pagination sample_state_inactive 1 1 Hc Hl Ho)
    as (Hpage & _ & _ & _ & _ & Hpages).
  split; [exact Hpage |].
  split; [reflexivity |].
  split; [reflexivity |].
  apply (Hpages 2%nat). vm_compute. lia.
Defined.

Lemma voteCTI_second_vote_rejected_witness :
  voteCTI bob 2 true
          (run sample_state [mkTx alice (SubmitCTI "QmHash4" "Botnet" "T4")])
    = Err (Revert "Already voted on this CTI") ∧
  downvotes (record_at
    (step (run sample_state [mkTx alice (SubmitCTI "QmHash4" "Botnet" "T4")])
          (mkTx bob (VoteCTI 2 true))) 2) = 1.
Proof.
  assert (Hvote :
    voteCTI bob 2 false
            (run initial_state
                 [ mkTx alice (SubmitCTI "QmHash1" "Malware" "T1");
                   mkTx alice (SubmitCTI "QmHash2" "Phishing" "T2");
                   mkTx alice (SubmitCTI "QmHash3" "Ransomware" "T3") ])
      = Ok (sample_state, [CTIVoted 2 11 false])) by reflexivity.
  destruct (voteCTI_second_vote_rejected _ bob 2 false sample_state _
              [mkTx alice (SubmitCTI "QmHash4" "Botnet" "T4")] bob true
              Hvote eq_refl) as (Herr & _ & _ & _ & Hdown).
  split; [exact Herr |].
  rewrite Hdown. reflexivity.
Defined.

Lemma voteCTI_self_vote_forbidden_witness :
  voteCTI alice 2 true sample_state = Err (Revert "Cannot vote on own submission") ∧
  step sample_state (mkTx alice (VoteCTI 2 true)) = sample_state.
Proof.
  assert (Hid : 1 ≤ 2 ≤ ctiCounter sample_state) by solve_range.
  destruct (voteCTI_self_vote_forbidden sample_state alice 2 true
              sample_state_reachable Hid eq_refl eq_refl)
    as (Herr & _ & Hstep & _).
  split; [exact Herr | exact Hstep].
Defined.

Lemma getCTIScore_identity_witness :
  (getCTI sample_state 4 = Err (Revert "CTI does not exist") ∧
   getCTIScore sample_state 4 = Err (Revert "CTI does not exist")) ∧
  (getCTI sample_state_inactive 2 = Err (Revert "CTI is not active") ∧
   getCTIScore sample_state_inactive 2 = Err (Revert "CTI is not active")) ∧
  getCTIScore sample_state_inactive 3 = Ok 0 ∧
  getCTIScore sample_state 2 = Ok (-1).
Proof.
  destruct (getCTIScore_identity sample_state 4) as (Hout & _).
  destruct (getCTIScore_identity sample_state_inactive 2) as (_ & Hinactive & _).
  destruct (getCTIScore_identity sample_state_inactive 3) as (_ & _ & Hactive & _).
  destruct (getCTIScore_identity sample_state 2) as (_ & _ & _ & Hreach).
  split; [|split; [|split]].
  - destruct Hout as (Hg & Hs & _); [|by split].
    intros [_ H]. vm_compute in H. apply H. reflexivity.
  - destruct Hinactive as (Hg & Hs & _); [solve_range | reflexivity | by split].
  - destruct Hactive as (_ & _ & Hs); [solve_range | reflexivity |].
    apply Hs; solve_range.
  - destruct Hreach as [_ Hs]; [apply sample_state_reachable | solve_range |].
    exact Hs.
Defined.

Lemma reachable_records_all_active_witness :
  getActiveCTICount sample_state = Ok 3 ∧
  ctiCounter sample_state = 3 ∧
  active_ids_desc sample_state = [3; 2; 1] ∧
  getActiveCTIs sample_state 2 1 = Ok [2; 1].
Proof.
  destruct (reachable_records_all_active sample_state sample_state_reachable)
    as (_ & _ & _ & Hids & Hlist & _ & Hcount).
  split; [|split; [|split]].
  - apply (Hcount sample_txs); [reflexivity |]. vm_compute. reflexivity.
  - reflexivity.
  - exact Hids.
  - apply (Hlist 2 1); lia.
Defined.

(** ** The scenarios of the specification *)

(** Scenario A: three submissions get ids 1, 2, 3; the listing is newest
    first. *)
Example scenario_A :
  ctiCounter sample_state = 3 ∧
  getActiveCTIs sample_state 2 0 = Ok [3; 2] ∧
  getActiveCTIs sample_state 2 1 = Ok [2; 1].
Proof. repeat split; reflexivity. Qed.

(** Scenario B: one upvote gives score 1; the same voter voting again is
    rejected and the tallies stay at 1 and 0. *)
Example scenario_B :
  let st1 := step initial_state (mkTx alice (SubmitCTI "QmHash1" "Malware" "T1")) in
  let st2 := step st1 (mkTx bob (VoteCTI 1 true)) in
  getCTIScore st2 1 = Ok 1 ∧
  voteCTI bob 1 false st2 = Err (Revert "Already voted on this CTI") ∧
  upvotes (record_at (step st2 (mkTx bob (VoteCTI 1 false))) 1) = 1 ∧
  downvotes (record_at (step st2 (mkTx bob (VoteCTI 1 false))) 1) = 0.
Proof. repeat split; reflexivity. Qed.

(** Scenarios C to F. *)
Example scenario_C_to_F :
  let st1 := step initial_state (mkTx alice (SubmitCTI "QmHash1" "Malware" "T1")) in
  voteCTI alice 1 true st1 = Err (Revert "Cannot vote on own submission") ∧
  submitCTI alice "" "Malware" "Title" st1 = Err (Revert "IPFS hash cannot be empty") ∧
  ctiCounter (step st1 (mkTx alice (SubmitCTI "" "Malware" "Title"))) = 1 ∧
  getActiveCTIs st1 0 0 = Err (Revert "Invalid limit") ∧
  getActiveCTIs st1 101 0 = Err (Revert "Invalid limit") ∧
  getCTI initial_state 999 = Err (Revert "CTI does not exist").
Proof. repeat split; reflexivity. Qed.

(** * Further properties of the contract *)

(** ** What a successful call writes *)

Lemma submitCTI_Ok_nonempty e h c t st st' evs :
  submitCTI e h c t st = Ok (st', evs) → h ≠ "" ∧ c ≠ "" ∧ t ≠ "".
Proof.
  intros H. unfold submitCTI in H.
  destruct h as [|a h]; [discriminate H |].
  destruct c as [|b c]; [discriminate H |].
  destruct t as [|d t]; [discriminate H |].
  repeat split; discriminate.
Qed.

Lemma checked_sub_int256_zero : checked_sub_int256 0 0 = Ok 0.
Proof.
  unfold checked_sub_int256. rewrite bool_decide_eq_true_2; [done |].
  unfold MIN_INT256, MAX_INT256. lia.
Qed.

Lemma submitCTI_counter e h c t st st' evs :
  submitCTI e h c t st = Ok (st', evs) → ctiCounter st' = ctiCounter st + 1.
Proof. intros H. by apply submitCTI_Ok_inv in H as (_ & -> & _). Qed.

Lemma submitCTI_new_record e h c t st st' evs :
  submitCTI e h c t st = Ok (st', evs) →
  record_at st' (ctiCounter st + 1) =
    {| id := ctiCounter st + 1; submitter := msg_sender e; ipfsHash := h;
       category := c; title := t; timestamp := block_timestamp e;
       upvotes := 0; downvotes := 0; isActive := true |}.
Proof.
  intros H. apply submitCTI_Ok_inv in H as (_ & -> & _).
  unfold record_at. simpl. by rewrite lookup_insert_eq.
Qed.

Lemma submitCTI_voted_at e h c t st st' evs k u :
  submitCTI e h c t st = Ok (st', evs) → voted_at st' k u = voted_at st k u.
Proof. intros H. by apply submitCTI_Ok_inv in H as (_ & -> & _). Qed.

Lemma submitCTI_submissions e h c t st st' evs u :
  submitCTI e h c t st = Ok (st', evs) →
  submissions_of st' u =
    submissions_of st u + (if decide (u = msg_sender e) then 1 else 0).
Proof.
  intros H. apply submitCTI_Ok_inv in H as (_ & -> & _).
  unfold submissions_of. simpl.
  destruct (decide (u = msg_sender e)) as [-> | Hu].
  - by rewrite lookup_insert_eq.
  - rewrite lookup_insert_ne by done. lia.
Qed.

Lemma voteCTI_counter e i up st st' evs :
  voteCTI e i up st = Ok (st', evs) → ctiCounter st' = ctiCounter st.
Proof. intros H. by apply voteCTI_Ok_inv in H as (_ & _ & _ & _ & -> & _). Qed.

Lemma voteCTI_submissions e i up st st' evs :
  voteCTI e i up st = Ok (st', evs) → userSubmissions st' = userSubmissions st.
Proof. intros H. by apply voteCTI_Ok_inv in H as (_ & _ & _ & _ & -> & _). Qed.

Lemma voteCTI_events e i up st st' evs :
  voteCTI e i up st = Ok (st', evs) → evs = [CTIVoted i (msg_sender e) up].
Proof. intros H. by apply voteCTI_Ok_inv in H as (_ & _ & _ & _ & _ & ->). Qed.

(** X1: a successful [submitCTI] followed by [getCTI] on the id just
    allocated returns exactly what was submitted: the caller as submitter,
    the three strings, the block timestamp, zero tallies and the active
    flag; the score of the new record is 0. *)
Theorem submitCTI_getCTI_roundtrip e h c t st st' evs :
  0 ≤ ctiCounter st →
  submitCTI e h c t st = Ok (st', evs) →
  getCTI st' (ctiCounter st') =
    Ok {| id := ctiCounter st + 1; submitter := msg_sender e; ipfsHash := h;
          category := c; title := t; timestamp := block_timestamp e;
          upvotes := 0; downvotes := 0; isActive := true |} ∧
  getCTIScore st' (ctiCounter st') = Ok 0.
Proof.
  intros Hc H. apply submitCTI_Ok_inv in H as (_ & -> & _).
  match goal with
  | |- context [getCTI (mkState ?a ?b ?c ?d)] => set (st' := mkState a b c d)
  end.
  change (ctiCounter st') with (ctiCounter st + 1).
  assert (Hrec : record_at st' (ctiCounter st + 1) =
                 {| id := ctiCounter st + 1; submitter := msg_sender e;
                    ipfsHash := h; category := c; title := t;
                    timestamp := block_timestamp e;
                    upvotes := 0; downvotes := 0; isActive := true |}).
  { rewrite (record_at_insert st' st (ctiCounter st + 1) _ _ eq_refl).
    by rewrite decide_True. }
  assert (Hv : validCTI st' (ctiCounter st + 1) = Ok ()).
  { apply validCTI_Ok; [change (ctiCounter st') with (ctiCounter st + 1); lia |].
    by rewrite Hrec. }
  unfold getCTI, getCTIScore. rewrite Hv, Hrec. simpl.
  split; [done |].
  unfold int256_of_uint256. rewrite bool_decide_eq_true_2.
  - apply checked_sub_int256_zero.
  - unfold MAX_INT256. lia.
Qed.

Lemma voteCTI_record_at e i up st st' evs k :
  voteCTI e i up st = Ok (st', evs) →
  record_at st' k =
    if decide (k = i)
    then (if up
          then set_upvotes (record_at st i) (upvotes (record_at st i) + 1)
          else set_downvotes (record_at st i) (downvotes (record_at st i) + 1))
    else record_at st k.
Proof.
  intros H. apply voteCTI_Ok_inv in H as (_ & _ & _ & _ & -> & _).
  match goal with
  | |- context [record_at (mkState ?a ?b ?c ?d) k] => set (st' := mkState a b c d)
  end.
  by rewrite (record_at_insert st' st i _ k eq_refl).
Qed.

Lemma voteCTI_voted_at e i up st st' evs k u :
  voteCTI e i up st = Ok (st', evs) →
  voted_at st' k u =
    if decide (k = i ∧ u = msg_sender e) then true else voted_at st k u.
Proof.
  intros H. apply voteCTI_Ok_inv in H as (_ & _ & _ & _ & -> & _).
  unfold voted_at, voters. simpl.
  destruct (decide (k = i)) as [-> | Hk].
  - rewrite lookup_insert_eq. simpl.
    destruct (decide (u = msg_sender e)) as [-> | Hu].
    + rewrite lookup_insert_eq. by rewrite decide_True.
    + rewrite lookup_insert_ne by done. rewrite decide_False; [done | tauto].
  - rewrite lookup_insert_ne by done. rewrite decide_False; [done | tauto].
Qed.

Lemma voteCTI_same_identity e i up st st' evs k :
  voteCTI e i up st = Ok (st', evs) →
  same_identity (record_at st k) (record_at st' k).
Proof.
  intros H. rewrite (voteCTI_record_at e i up st st' evs k H).
  destruct (decide (k = i)) as [-> | Hk]; [|by repeat split].
  destruct up; by repeat split.
Qed.

(** X2: a successful [voteCTI] raises exactly one tally of the voted
    record by exactly 1, the one chosen by [_isUpvote], and leaves the other
    tally, every other field of that record, every other record, the
    counter and the submission counts as they were; it logs the single
    event [CTIVoted(_id, msg.sender, _isUpvote)]. *)
Theorem voteCTI_effect e _id up st st' evs :
  voteCTI e _id up st = Ok (st', evs) →
  upvotes (record_at st' _id) =
    upvotes (record_at st _id) + (if up then 1 else 0) ∧
  downvotes (record_at st' _id) =
    downvotes (record_at st _id) + (if up then 0 else 1) ∧
  same_identity (record_at st _id) (record_at st' _id) ∧
  (∀ k, k ≠ _id → record_at st' k = record_at st k) ∧
  ctiCounter st' = ctiCounter st ∧
  userSubmissions st' = userSubmissions st ∧
  evs = [CTIVoted _id (msg_sender e) up].
Proof.
  intros H.
  pose proof (voteCTI_record_at e _id up st st' evs) as Hrec.
  rewrite (Hrec _id H), decide_True by done.
  split; [destruct up; simpl; lia |].
  split; [destruct up; simpl; lia |].
  split; [by destruct up |].
  split.
  { intros k Hk. by rewrite (Hrec k H), decide_False. }
  by apply voteCTI_Ok_inv in H as (_ & _ & _ & _ & -> & ->).
Qed.

Lemma voteCTI_effect_witness :
  upvotes (record_at (step sample_state (mkTx bob (VoteCTI 3 true))) 3) = 1 ∧
  downvotes (record_at (step sample_state (mkTx bob (VoteCTI 3 true))) 3) = 0.
Proof.
  assert (H : voteCTI bob 3 true sample_state
              = Ok (step sample_state (mkTx bob (VoteCTI 3 true)),
                    [CTIVoted 3 11 true])) by reflexivity.
  destruct (voteCTI_effect bob 3 true sample_state _ _ H) as (Hup & Hdn & _).
  rewrite Hup, Hdn. split; reflexivity.
Defined.

(** X3: before a successful [voteCTI] the caller is not recorded as a voter
    of the record, afterwards [hasUserVoted] returns [true] for exactly
    that (id, caller) pair in addition to the pairs recorded before. *)
Theorem voteCTI_hasUserVoted e _id up st st' evs :
  voteCTI e _id up st = Ok (st', evs) →
  hasUserVoted st _id (msg_sender e) = Ok false ∧
  hasUserVoted st' _id (msg_sender e) = Ok true ∧
  ∀ k u, ¬ (k = _id ∧ u = msg_sender e) →
         hasUserVoted st' k u = hasUserVoted st k u.
Proof.
  intros H. unfold hasUserVoted.
  pose proof (voteCTI_voted_at e _id up st st' evs) as Hv.
  split; [|split].
  - by apply voteCTI_Ok_inv in H as (_ & -> & _).
  - by rewrite (Hv _id (msg_sender e) H), decide_True.
  - intros k u Hne. by rewrite (Hv k u H), decide_False.
Qed.

Lemma voteCTI_hasUserVoted_witness :
  hasUserVoted sample_state 3 11 = Ok false ∧
  hasUserVoted (step sample_state (mkTx bob (VoteCTI 3 true))) 3 11 = Ok true.
Proof.
  assert (H : voteCTI bob 3 true sample_state
              = Ok (step sample_state (mkTx bob (VoteCTI 3 true)),
                    [CTIVoted 3 11 true])) by reflexivity.
  destruct (voteCTI_hasUserVoted bob 3 true sample_state _ _ H) as (H0 & H1 & _).
  split; [exact H0 | exact H1].
Defined.

Lemma sample_submit_call :
  submitCTI bob "QmHash4" "Botnet" "T4" sample_state
    = Ok (step sample_state (mkTx bob (SubmitCTI "QmHash4" "Botnet" "T4")),
          [CTISubmitted 4 11 "QmHash4" "Botnet" "T4"]).
Proof. reflexivity. Qed.

Lemma submitCTI_getCTI_roundtrip_witness :
  getCTI (step sample_state (mkTx bob (SubmitCTI "QmHash4" "Botnet" "T4"))) 4 =
    Ok {| id := 4; submitter := 11; ipfsHash := "QmHash4"; category := "Botnet";
          title := "T4"; timestamp := 1001; upvotes := 0; downvotes := 0;
          isActive := true |} ∧
  getCTIScore (step sample_state (mkTx bob (SubmitCTI "QmHash4" "Botnet" "T4"))) 4
    = Ok 0.
Proof.
  assert (Hc : 0 ≤ ctiCounter sample_state) by solve_range.
  exact (submitCTI_getCTI_roundtrip bob "QmHash4" "Botnet" "T4" sample_state _ _
           Hc sample_submit_call).
Defined.

(** X4: a successful [submitCTI] changes nothing that existed: every
    record at an already assigned id, every recorded vote and every other
    account's submission count stay as they were; the counter and the
    caller's submission count each grow by exactly 1. *)
Theorem submitCTI_frame e h c t st st' evs :
  submitCTI e h c t st = Ok (st', evs) →
  ctiCounter st' = ctiCounter st + 1 ∧
  (∀ k, k ≤ ctiCounter st → record_at st' k = record_at st k) ∧
  (∀ k u, voted_at st' k u = voted_at st k u) ∧
  submissions_of st' (msg_sender e) = submissions_of st (msg_sender e) + 1 ∧
  (∀ u, u ≠ msg_sender e → submissions_of st' u = submissions_of st u).
Proof.
  intros H.
  split; [by apply submitCTI_Ok_inv in H as (_ & -> & _) |].
  split; [intros k Hk; by eapply record_at_submit |].
  apply submitCTI_Ok_inv in H as (_ & -> & _).
  split; [done |].
  unfold submissions_of. simpl.
  split; [by rewrite lookup_insert_eq |].
  intros u Hu. by rewrite lookup_insert_ne.
Qed.

Lemma submitCTI_frame_witness :
  ctiCounter (step sample_state (mkTx bob (SubmitCTI "QmHash4" "Botnet" "T4"))) = 4 ∧
  submissions_of (step sample_state (mkTx bob (SubmitCTI "QmHash4" "Botnet" "T4"))) 11
    = 1.
Proof.
  destruct (submitCTI_frame bob "QmHash4" "Botnet" "T4" sample_state _ _
              sample_submit_call) as (Hc & _ & _ & Hs & _).
  split.
  - rewrite Hc. reflexivity.
  - etransitivity; [exact Hs | reflexivity].
Defined.

(** ** Records never change identity *)

Lemma same_identity_refl c : same_identity c c.
Proof. by repeat split. Qed.

Lemma same_identity_trans c1 c2 c3 :
  same_identity c1 c2 → same_identity c2 c3 → same_identity c1 c3.
Proof.
  unfold same_identity.
  intros (? & ? & ? & ? & ? & ? & ?) (? & ? & ? & ? & ? & ? & ?).
  repeat split; congruence.
Qed.

Lemma step_record_stable st tx k :
  k ≤ ctiCounter st →
  same_identity (record_at st k) (record_at (step st tx) k) ∧
  upvotes (record_at st k) ≤ upvotes (record_at (step st tx) k) ∧
  downvotes (record_at st k) ≤ downvotes (record_at (step st tx) k).
Proof.
  intros Hk. unfold step.
  destruct (call_contract (tx_env tx) (tx_call tx) st) as [[[st' evs] ret]|err] eqn:E.
  2:{ split; [apply same_identity_refl | lia]. }
  apply call_contract_Ok_cases in E
    as [(h & c & t & _ & H & _) | [(i & up & _ & H & _) | (-> & _)]].
  - rewrite (record_at_submit _ _ _ _ _ _ _ k H Hk).
    split; [apply same_identity_refl | lia].
  - rewrite (voteCTI_record_at _ _ _ _ _ _ k H).
    destruct (decide (k = i)) as [-> | Hne].
    + destruct up; (split; [by repeat split | simpl; lia]).
    + split; [apply same_identity_refl | lia].
  - split; [apply same_identity_refl | lia].
Qed.

Lemma run_same_identity txs : ∀ st k,
  k ≤ ctiCounter st → same_identity (record_at st k) (record_at (run st txs) k).
Proof.
  induction txs as [|tx txs IH]; intros st k Hk.
  - apply same_identity_refl.
  - change (run st (tx :: txs)) with (run (step st tx) txs).
    destruct (step_record_stable st tx k Hk) as [Hid _].
    pose proof (step_counter_mono st tx) as Hmono.
    eapply same_identity_trans; [exact Hid | apply IH; lia].
Qed.

(** X5: once an id is assigned, no sequence of calls changes the [id],
    [submitter], [ipfsHash], [category], [title], [timestamp] or [isActive]
    field of its record, and neither tally ever decreases. *)
Theorem run_record_stable txs : ∀ st k,
  k ≤ ctiCounter st →
  same_identity (record_at st k) (record_at (run st txs) k) ∧
  upvotes (record_at st k) ≤ upvotes (record_at (run st txs) k) ∧
  downvotes (record_at st k) ≤ downvotes (record_at (run st txs) k).
Proof.
  induction txs as [|tx txs IH]; intros st k Hk.
  - change (run st []) with st. split; [apply same_identity_refl | lia].
  - change (run st (tx :: txs)) with (run (step st tx) txs).
    destruct (step_record_stable st tx k Hk) as (Hid & Hup & Hdn).
    pose proof (step_counter_mono st tx) as Hmono.
    destruct (IH (step st tx) k) as (Hid' & Hup' & Hdn'); [lia |].
    split; [by eapply same_identity_trans |]. lia.
Qed.

Lemma run_record_stable_witness :
  title (record_at (run sample_state
                        [mkTx bob (VoteCTI 1 true);
                         mkTx bob (SubmitCTI "QmHash4" "Botnet" "T4")]) 1) = "T1".
Proof.
  assert (Hk : 1 ≤ ctiCounter sample_state) by solve_range.
  destruct (run_record_stable
              [mkTx bob (VoteCTI 1 true);
               mkTx bob (SubmitCTI "QmHash4" "Botnet" "T4")]
              sample_state 1 Hk) as ((_ & _ & _ & _ & Ht & _) & _).
  rewrite Ht. reflexivity.
Defined.

(** ** When the state-changing calls succeed *)

(** X6: in a reachable state [voteCTI] succeeds exactly when the id is
    assigned, the caller has not voted on it and the caller is not its
    submitter; no tally can be so large that the increment overflows. *)
Theorem voteCTI_succeeds_iff st e _id up :
  reachable st →
  (∃ st', voteCTI e _id up st = Ok (st', [CTIVoted _id (msg_sender e) up])) ↔
  1 ≤ _id ≤ ctiCounter st ∧
  voted_at st _id (msg_sender e) = false ∧
  submitter (record_at st _id) ≠ msg_sender e.
Proof.
  intros Hr. split.
  - intros [st' H].
    by apply voteCTI_Ok_inv in H as ([? _] & ? & ? & _).
  - intros (Hid & Hn & Hs).
    pose proof (reachable_all_active st _id Hr Hid) as Ha.
    pose proof (reachable_tallies st _id Hr Hid) as (Hup & Hdn & Hsum).
    assert (Hmax : MAX_ADDRESS + 1 < MAX_UINT256).
    { unfold MAX_ADDRESS, MAX_UINT256. lia. }
    unfold voteCTI, hasNotVoted. rewrite validCTI_Ok by done. simpl.
    rewrite Hn. simpl. rewrite bool_decide_eq_false_2 by done. simpl.
    destruct up; rewrite checked_inc_lt by lia; simpl; eauto.
Qed.

Lemma voteCTI_succeeds_iff_witness :
  (∃ st', voteCTI bob 3 true sample_state = Ok (st', [CTIVoted 3 11 true])) ∧
  ¬ (∃ st', voteCTI bob 2 true sample_state = Ok (st', [CTIVoted 2 11 true])).
Proof.
  split.
  - apply (voteCTI_succeeds_iff sample_state bob 3 true sample_state_reachable).
    split; [solve_range |]. split; [reflexivity |]. vm_compute. discriminate.
  - intros H.
    apply (voteCTI_succeeds_iff sample_state bob 2 true sample_state_reachable) in H.
    destruct H as (_ & H & _). vm_compute in H. discriminate H.
Defined.

(** ** Submission counts *)

Lemma filter_ext_elem {A : Type} (P Q : A → Prop)
    `{∀ x, Decision (P x)} `{∀ x, Decision (Q x)} (l : list A) :
  (∀ x, x ∈ l → (P x ↔ Q x)) → filter P l = filter Q l.
Proof.
  induction l as [|x l IH]; intros HPQ; [done |].
  rewrite !filter_cons.
  rewrite IH by (intros y Hy; apply HPQ; by right).
  pose proof (HPQ x (list_elem_of_here x l)) as Hx.
  destruct (decide (P x)) as [HP | HP], (decide (Q x)) as [HQ | HQ];
    (done || tauto).
Qed.

Lemma submitted_by_submit e h c t st st' evs u :
  0 ≤ ctiCounter st →
  submitCTI e h c t st = Ok (st', evs) →
  submitted_by st' u =
    submitted_by st u ++ (if decide (msg_sender e = u) then [ctiCounter st + 1] else []).
Proof.
  intros Hc H.
  pose proof (submitCTI_new_record e h c t st st' evs H) as Hget.
  pose proof (submitCTI_counter e h c t st st' evs H) as Hctr.
  pose proof (λ k, record_at_submit e h c t st st' evs k H) as Hold.
  unfold submitted_by. rewrite Hctr.
  rewrite seqZ_app by lia. rewrite filter_app.
  f_equal.
  - apply filter_ext_elem. intros k Hk. apply elem_of_seqZ in Hk.
    by rewrite Hold by lia.
  - replace (1 + ctiCounter st) with (ctiCounter st + 1) by lia.
    rewrite (seqZ_cons _ 1), (seqZ_nil _ (Z.pred 1)) by lia.
    rewrite filter_cons, filter_nil, Hget. simpl.
    by destruct (decide (msg_sender e = u)).
Qed.

Lemma submitted_by_vote e i up st st' evs u :
  voteCTI e i up st = Ok (st', evs) → submitted_by st' u = submitted_by st u.
Proof.
  intros H.
  unfold submitted_by. rewrite (voteCTI_counter e i up st st' evs H).
  apply filter_ext_elem. intros k _.
  by destruct (voteCTI_same_identity e i up st st' evs k H) as (_ & -> & _).
Qed.

Lemma step_submissions st tx :
  0 ≤ ctiCounter st →
  (∀ u, submissions_of st u = Z.of_nat (length (submitted_by st u))) →
  ∀ u, submissions_of (step st tx) u
       = Z.of_nat (length (submitted_by (step st tx) u)).
Proof.
  intros Hc Hinv u. unfold step.
  destruct (call_contract (tx_env tx) (tx_call tx) st) as [[[st' evs] ret]|err] eqn:E;
    [|done].
  apply call_contract_Ok_cases in E
    as [(h & c & t & _ & H & _) | [(i & up & _ & H & _) | (-> & _)]].
  - rewrite (submitted_by_submit _ _ _ _ _ _ _ u Hc H), length_app.
    rewrite (submitCTI_submissions _ _ _ _ _ _ _ u H), Hinv.
    destruct (decide (msg_sender (tx_env tx) = u)) as [<- | Hne].
    + rewrite decide_True by done. simpl. lia.
    + rewrite decide_False by congruence. simpl. lia.
  - rewrite (submitted_by_vote _ _ _ _ _ _ u H).
    unfold submissions_of. rewrite (voteCTI_submissions _ _ _ _ _ _ H).
    apply Hinv.
  - done.
Qed.

Lemma reachable_submissions st u :
  reachable st → submissions_of st u = Z.of_nat (length (submitted_by st u)).
Proof.
  intros Hr. revert u. induction Hr as [|st tx Hr IH Hwf]; intros u.
  - reflexivity.
  - apply step_submissions; [|done].
    apply (inv_counter st (reachable_inv st Hr)).
Qed.

Lemma submitted_by_length st u :
  0 ≤ ctiCounter st → Z.of_nat (length (submitted_by st u)) ≤ ctiCounter st.
Proof.
  intros Hc. unfold submitted_by.
  pose proof (length_filter (λ k, submitter (record_at st k) = u)
                            (seqZ 1 (ctiCounter st))) as Hlen.
  rewrite length_seqZ in Hlen. lia.
Qed.

Lemma reachable_submissions_le st u :
  reachable st → submissions_of st u ≤ ctiCounter st.
Proof.
  intros Hr. rewrite (reachable_submissions st u Hr).
  apply submitted_by_length, (inv_counter st (reachable_inv st Hr)).
Qed.

(** X7: in every reachable state the public getter [userSubmissions(user)]
    returns the number of assigned records whose submitter is [user]; in
    particular it never exceeds [ctiCounter]. *)
Theorem userSubmissions_counts_records st _user :
  reachable st →
  get_userSubmissions st _user = Ok (Z.of_nat (length (submitted_by st _user))) ∧
  submissions_of st _user ≤ ctiCounter st.
Proof.
  intros Hr. unfold get_userSubmissions.
  rewrite (reachable_submissions st _user Hr).
  split; [done |].
  apply submitted_by_length, (inv_counter st (reachable_inv st Hr)).
Qed.

Lemma userSubmissions_counts_records_witness :
  get_userSubmissions sample_state 10 = Ok 3 ∧
  submitted_by sample_state 10 = [1; 2; 3] ∧
  get_userSubmissions sample_state 11 = Ok 0.
Proof.
  destruct (userSubmissions_counts_records sample_state 10 sample_state_reachable)
    as [H10 _].
  destruct (userSubmissions_counts_records sample_state 11 sample_state_reachable)
    as [H11 _].
  split; [exact H10 |]. split; [reflexivity | exact H11].
Defined.

(** X8: in a reachable state [submitCTI] succeeds exactly when the three
    strings are non-empty and the counter is below [2^256 - 1]; the
    caller's submission count can never be what overflows. *)
Theorem submitCTI_succeeds_iff st e h c t :
  reachable st →
  (∃ st', submitCTI e h c t st
          = Ok (st', [CTISubmitted (ctiCounter st + 1) (msg_sender e) h c t])) ↔
  h ≠ "" ∧ c ≠ "" ∧ t ≠ "" ∧ ctiCounter st < MAX_UINT256.
Proof.
  intros Hr. split.
  - intros [st' H].
    destruct (submitCTI_Ok_nonempty _ _ _ _ _ _ _ H) as (? & ? & ?).
    by apply submitCTI_Ok_inv in H as (? & _).
  - intros (Hh & Hc & Ht & Hlt).
    pose proof (reachable_submissions_le st (msg_sender e) Hr) as Hs.
    unfold submitCTI.
    destruct h as [|a h]; [done |].
    destruct c as [|b c]; [done |].
    destruct t as [|d t]; [done |].
    simpl. rewrite !checked_inc_lt by lia. simpl. eauto.
Qed.

Lemma submitCTI_succeeds_iff_witness :
  ∃ st', submitCTI bob "QmHash4" "Botnet" "T4" sample_state
         = Ok (st', [CTISubmitted (ctiCounter sample_state + 1) (msg_sender bob)
                                  "QmHash4" "Botnet" "T4"]).
Proof.
  apply (submitCTI_succeeds_iff sample_state bob "QmHash4" "Botnet" "T4"
           sample_state_reachable).
  repeat split; (discriminate || solve_range).
Defined.

(** ** Votes and scores *)

(** X9: in a reachable state a successful upvote raises the score that
    [getCTIScore] returns for the record by exactly 1 and a successful
    downvote lowers it by exactly 1. *)
Theorem voteCTI_moves_score st e _id up st' evs :
  reachable st → wf_tx (mkTx e (VoteCTI _id up)) →
  voteCTI e _id up st = Ok (st', evs) →
  ∃ s, getCTIScore st _id = Ok s ∧
       getCTIScore st' _id = Ok (if up then s + 1 else s - 1).
Proof.
  intros Hr Hwf H.
  assert (Hstep : step st (mkTx e (VoteCTI _id up)) = st').
  { unfold step. simpl. by rewrite H. }
  assert (Hr' : reachable st') by (rewrite <- Hstep; by constructor).
  pose proof (voteCTI_record_at e _id up st st' evs _id H) as Hrec.
  rewrite decide_True in Hrec by done.
  pose proof (voteCTI_counter e _id up st st' evs H) as Hctr.
  apply voteCTI_Ok_inv in H as ([Hid Ha] & _).
  exists (upvotes (record_at st _id) - downvotes (record_at st _id)).
  split; [by apply getCTIScore_exact |].
  rewrite getCTIScore_exact;
    [| done | by rewrite Hctr | rewrite Hrec; by destruct up].
  rewrite Hrec. f_equal. destruct up; simpl; lia.
Qed.

Lemma voteCTI_moves_score_witness :
  getCTIScore sample_state 3 = Ok 0 ∧
  getCTIScore (step sample_state (mkTx bob (VoteCTI 3 false))) 3 = Ok (-1).
Proof.
  assert (H : voteCTI bob 3 false sample_state
              = Ok (step sample_state (mkTx bob (VoteCTI 3 false)),
                    [CTIVoted 3 11 false])) by reflexivity.
  assert (Hwf : wf_tx (mkTx bob (VoteCTI 3 false))).
  { unfold wf_tx, wf_call. cbn [tx_env tx_call msg_sender block_timestamp].
    repeat split; solve_range. }
  destruct (voteCTI_moves_score sample_state bob 3 false _ _
              sample_state_reachable Hwf H) as (s & Hs & Hs').
  assert (s = 0) as ->.
  { assert (Hs0 : getCTIScore sample_state 3 = Ok 0) by reflexivity.
    rewrite Hs0 in Hs. by injection Hs. }
  split; [exact Hs | exact Hs'].
Defined.

(** X10: in a reachable state the two tallies of an assigned record sum to
    the number of distinct addresses recorded as its voters, which are
    exactly the addresses for which [hasUserVoted] returns [true]; the sum
    never exceeds [2^160]. *)
Theorem tallies_count_voters st k :
  reachable st → 1 ≤ k ≤ ctiCounter st →
  upvotes (record_at st k) + downvotes (record_at st k)
    = Z.of_nat (size (voters st k)) ∧
  (∀ u, hasUserVoted st k u = Ok true ↔ u ∈ dom (voters st k)) ∧
  upvotes (record_at st k) + downvotes (record_at st k) ≤ 2 ^ 160.
Proof.
  intros Hr Hk.
  pose proof (reachable_inv st Hr) as Hinv.
  pose proof (record_at_Some st k Hinv Hk) as Hrec.
  apply (inv_record st Hinv) in Hrec as (_ & _ & _ & _ & Hsum & _).
  pose proof (reachable_tallies st k Hr Hk) as (_ & _ & Hle).
  split; [done |].
  split; [|unfold MAX_ADDRESS in Hle; lia].
  intros u. unfold hasUserVoted, voted_at. fold (voters st k).
  rewrite elem_of_dom. split.
  - intros [= Hv]. destruct (voters st k !! u); [eauto | discriminate].
  - intros [b Hb]. rewrite Hb.
    by apply (inv_votes st Hinv) in Hb as [-> _].
Qed.

Lemma tallies_count_voters_witness :
  upvotes (record_at sample_state 2) + downvotes (record_at sample_state 2)
    = Z.of_nat (size (voters sample_state 2)) ∧
  size (voters sample_state 2) = 1%nat.
Proof.
  assert (Hk : 1 ≤ 2 ≤ ctiCounter sample_state) by solve_range.
  destruct (tallies_count_voters sample_state 2 sample_state_reachable Hk)
    as (Hsum & _).
  split; [exact Hsum | reflexivity].
Defined.

(** X11: in a reachable state a recorded vote always belongs to an assigned
    record, comes from a 160-bit address and never from the record's own
    submitter. *)
Theorem recorded_votes_are_legitimate st k u :
  reachable st → voted_at st k u = true →
  1 ≤ k ≤ ctiCounter st ∧ is_address u ∧ u ≠ submitter (record_at st k).
Proof.
  intros Hr Hv.
  pose proof (reachable_inv st Hr) as Hinv.
  unfold voted_at in Hv. fold (voters st k) in Hv.
  destruct (voters st k !! u) as [b|] eqn:Hb; [|discriminate].
  pose proof (inv_votes st Hinv k u b Hb) as [_ Hk].
  split; [done |].
  split; [by apply (reachable_voters st Hr k u b) |].
  pose proof (record_at_Some st k Hinv Hk) as Hrec.
  apply (inv_record st Hinv) in Hrec as (_ & _ & _ & _ & _ & Hself).
  intros ->. by rewrite Hself in Hb.
Qed.

Lemma recorded_votes_are_legitimate_witness :
  1 ≤ 2 ≤ ctiCounter sample_state ∧ is_address 11 ∧
  11 ≠ submitter (record_at sample_state 2).
Proof.
  apply (recorded_votes_are_legitimate sample_state 2 11 sample_state_reachable).
  reflexivity.
Defined.

(** ** Counting and listing on any record set *)

(** X12: on any storage whose counter is a [uint256] below [2^256 - 1],
    whatever its records, [getActiveCTICount] returns the number of
    assigned ids whose record is active: the length of the sequence that
    [getActiveCTIs] pages through, which is at most [ctiCounter]. *)
Theorem getActiveCTICount_characterized st :
  is_uint256 (ctiCounter st) → ctiCounter st < MAX_UINT256 →
  getActiveCTICount st = Ok (Z.of_nat (length (active_ids_desc st))) ∧
  Z.of_nat (length (active_ids_desc st)) ≤ ctiCounter st.
Proof.
  intros [Hc0 Hc1] Hlt.
  split; [apply getActiveCTICount_counts; lia |].
  unfold active_ids_desc, active_ids_upto.
  pose proof (length_filter (λ k, isActive (record_at st k) = true)
                            (reverse (seqZ 1 (ctiCounter st)))) as Hlen.
  rewrite length_reverse, length_seqZ in Hlen. lia.
Qed.

Lemma getActiveCTICount_characterized_witness :
  getActiveCTICount sample_state_inactive = Ok 2 ∧
  active_ids_desc sample_state_inactive = [3; 1].
Proof.
  assert (Hc : is_uint256 (ctiCounter sample_state_inactive)) by solve_range.
  destruct (getActiveCTICount_characterized sample_state_inactive Hc)
    as [Hcount _]; [solve_range |].
  split; [exact Hcount | reflexivity].
Defined.

(** X13: every id that [getActiveCTIs] returns can be fetched: it lies in
    [1 .. ctiCounter], its record is active and [getCTI] on it succeeds with
    that record; a page holds no id twice and at most [_limit] ids. *)
Theorem getActiveCTIs_ids_fetchable st _limit _offset :
  is_uint256 (ctiCounter st) → 1 ≤ _limit ≤ 100 → 0 ≤ _offset →
  ∃ page,
    getActiveCTIs st _limit _offset = Ok page ∧
    Forall (λ k, 1 ≤ k ≤ ctiCounter st ∧
                 isActive (record_at st k) = true ∧
                 getCTI st k = Ok (record_at st k)) page ∧
    NoDup page ∧
    Z.of_nat (length page) ≤ _limit.
Proof.
  intros Hc Hl Ho. exists (spec_listActive st _limit _offset).
  split; [by apply getActiveCTIs_refines |].
  assert (Hsub : sublist (spec_listActive st _limit _offset) (active_ids_desc st)).
  { unfold spec_listActive.
    etransitivity; [apply sublist_take | apply sublist_drop]. }
  split; [|split].
  - apply Forall_forall. intros k Hk.
    apply (sublist_subseteq _ _ Hsub), active_ids_upto_spec in Hk as [Hr Ha].
    split; [done |]. split; [done |].
    unfold getCTI. by rewrite validCTI_Ok.
  - eapply sublist_NoDup; [apply active_ids_upto_NoDup | exact Hsub].
  - unfold spec_listActive. rewrite length_take. lia.
Qed.

Lemma getActiveCTIs_ids_fetchable_witness :
  ∃ page,
    getActiveCTIs sample_state_inactive 2 0 = Ok page ∧
    Forall (λ k, 1 ≤ k ≤ ctiCounter sample_state_inactive ∧
                 isActive (record_at sample_state_inactive k) = true ∧
                 getCTI sample_state_inactive k
                   = Ok (record_at sample_state_inactive k)) page ∧
    NoDup page ∧
    Z.of_nat (length page) ≤ 2.
Proof.
  apply (getActiveCTIs_ids_fetchable sample_state_inactive 2 0);
    [solve_range | lia | lia].
Defined.

(** X14: with a valid limit, [getActiveCTIs] returns the empty array
    exactly when the offset is at least the number of active records; it
    does not fail on an empty registry or on an offset past the end. *)
Theorem getActiveCTIs_empty_iff st _limit _offset :
  is_uint256 (ctiCounter st) → 1 ≤ _limit ≤ 100 → 0 ≤ _offset →
  getActiveCTIs st _limit _offset = Ok [] ↔
  Z.of_nat (length (active_ids_desc st)) ≤ _offset.
Proof.
  intros Hc Hl Ho. rewrite getActiveCTIs_refines by done.
  pose proof (spec_listActive_length st _limit _offset) as Hlen.
  split.
  - intros [= Hnil]. rewrite Hnil in Hlen. simpl in Hlen. lia.
  - intros Hle. f_equal. apply length_zero_iff_nil. lia.
Qed.

Lemma getActiveCTIs_empty_iff_witness :
  getActiveCTIs initial_state 10 0 = Ok [] ∧
  getActiveCTIs sample_state 10 3 = Ok [].
Proof.
  split.
  - apply (getActiveCTIs_empty_iff initial_state 10 0); [solve_range | lia | lia |].
    vm_compute. discriminate.
  - apply (getActiveCTIs_empty_iff sample_state 10 3); [solve_range | lia | lia |].
    vm_compute. discriminate.
Defined.

(** ** How submissions and votes show in the listing *)

Lemma active_ids_upto_ext st st' i :
  (∀ k, 1 ≤ k ≤ i → isActive (record_at st' k) = isActive (record_at st k)) →
  active_ids_upto st' i = active_ids_upto st i.
Proof.
  intros Hext. unfold active_ids_upto. apply filter_ext_elem.
  intros k Hk. apply elem_of_reverse, elem_of_seqZ in Hk.
  by rewrite Hext by lia.
Qed.

Lemma submitCTI_active_ids e h c t st st' evs :
  0 ≤ ctiCounter st →
  submitCTI e h c t st = Ok (st', evs) →
  active_ids_desc st' = (ctiCounter st + 1) :: active_ids_desc st.
Proof.
  intros Hc H.
  pose proof (submitCTI_new_record e h c t st st' evs H) as Hget.
  pose proof (submitCTI_counter e h c t st st' evs H) as Hctr.
  pose proof (λ k, record_at_submit e h c t st st' evs k H) as Hold.
  unfold active_ids_desc. rewrite Hctr.
  rewrite active_ids_upto_step by lia.
  replace (ctiCounter st + 1 - 1) with (ctiCounter st) by lia.
  rewrite (active_ids_upto_ext st st' (ctiCounter st))
    by (intros k Hk; rewrite Hold by lia; done).
  by rewrite Hget.
Qed.

(** X15: a successful [submitCTI] puts the new id in front of the listing
    and moves every older entry one position back: the first page then
    starts with the new id, and the page at offset [o + 1] afterwards is the
    page at offset [o] before. *)
Theorem submitCTI_shifts_listing e h c t st st' evs _limit _offset :
  0 ≤ ctiCounter st → 1 ≤ _limit ≤ 100 → 0 ≤ _offset →
  submitCTI e h c t st = Ok (st', evs) →
  active_ids_desc st' = ctiCounter st' :: active_ids_desc st ∧
  getActiveCTIs st' _limit 0 =
    Ok (ctiCounter st' :: take (Z.to_nat (_limit - 1)) (active_ids_desc st)) ∧
  getActiveCTIs st' _limit (_offset + 1) = getActiveCTIs st _limit _offset.
Proof.
  intros Hc Hl Ho H.
  pose proof (submitCTI_active_ids e h c t st st' evs Hc H) as Hids.
  pose proof (submitCTI_counter e h c t st st' evs H) as Hctr.
  pose proof H as Hinv. apply submitCTI_Ok_inv in Hinv as (Hlt & _).
  assert (Hc' : is_uint256 (ctiCounter st')) by (unfold is_uint256; lia).
  assert (Hcu : is_uint256 (ctiCounter st)) by (unfold is_uint256; lia).
  rewrite Hctr at 1 2. split; [done |].
  rewrite !getActiveCTIs_refines by (done || lia).
  unfold spec_listActive. rewrite Hids.
  split.
  - replace (Z.to_nat _limit) with (S (Z.to_nat (_limit - 1))) by lia. done.
  - replace (Z.to_nat (_offset + 1)) with (S (Z.to_nat _offset)) by lia. done.
Qed.

Lemma submitCTI_shifts_listing_witness :
  getActiveCTIs (step sample_state (mkTx bob (SubmitCTI "QmHash4" "Botnet" "T4"))) 2 1
    = getActiveCTIs sample_state 2 0.
Proof.
  assert (Hc : 0 ≤ ctiCounter sample_state) by solve_range.
  assert (Hl : 1 ≤ 2 ≤ 100) by lia.
  assert (Ho : 0 ≤ 0) by lia.
  destruct (submitCTI_shifts_listing bob "QmHash4" "Botnet" "T4" sample_state _ _
              2 0 Hc Hl Ho sample_submit_call) as (_ & _ & Hshift).
  exact Hshift.
Defined.

(** X16: a successful [voteCTI] changes neither the listing nor the count
    of active records: [getActiveCTIs] returns the same page for every
    valid limit and offset, and [getActiveCTICount] the same result. *)
Theorem voteCTI_keeps_listing e _id up st st' evs _limit _offset :
  is_uint256 (ctiCounter st) → 1 ≤ _limit ≤ 100 → 0 ≤ _offset →
  voteCTI e _id up st = Ok (st', evs) →
  active_ids_desc st' = active_ids_desc st ∧
  getActiveCTIs st' _limit _offset = getActiveCTIs st _limit _offset ∧
  getActiveCTICount st' = getActiveCTICount st.
Proof.
  intros Hc Hl Ho H.
  pose proof (voteCTI_counter e _id up st st' evs H) as Hctr.
  assert (Hids : active_ids_desc st' = active_ids_desc st).
  { unfold active_ids_desc. rewrite Hctr. apply active_ids_upto_ext.
    intros k _.
    by destruct (voteCTI_same_identity e _id up st st' evs k H)
      as (_ & _ & _ & _ & _ & _ & ->). }
  assert (Hc' : is_uint256 (ctiCounter st')) by (by rewrite Hctr).
  split; [done |]. split.
  - rewrite !getActiveCTIs_refines by done.
    unfold spec_listActive. by rewrite Hids.
  - destruct Hc as [Hc0 Hc1].
    destruct (decide (ctiCounter st = MAX_UINT256)) as [Hmax | Hlt].
    + unfold getActiveCTICount. rewrite Hctr, Hmax.
      assert (0 < MAX_UINT256) by (unfold MAX_UINT256; lia).
      rewrite !getActiveCTICount_loop_overflow by (done || lia || congruence).
      done.
    + rewrite !getActiveCTICount_counts by lia. by rewrite Hids.
Qed.

Lemma voteCTI_keeps_listing_witness :
  getActiveCTIs (step sample_state (mkTx bob (VoteCTI 3 true))) 2 0
    = getActiveCTIs sample_state 2 0 ∧
  getActiveCTICount (step sample_state (mkTx bob (VoteCTI 3 true)))
    = getActiveCTICount sample_state.
Proof.
  assert (H : voteCTI bob 3 true sample_state
              = Ok (step sample_state (mkTx bob (VoteCTI 3 true)),
                    [CTIVoted 3 11 true])) by reflexivity.
  assert (Hc : is_uint256 (ctiCounter sample_state)) by solve_range.
  assert (Hl : 1 ≤ 2 ≤ 100) by lia.
  assert (Ho : 0 ≤ 0) by lia.
  destruct (voteCTI_keeps_listing bob 3 true sample_state _ _ 2 0 Hc Hl Ho H)
    as (_ & Hlist & Hcount).
  split; [exact Hlist | exact Hcount].
Defined.

(** ** What is stored *)

Lemma record_wf_same_identity k c c' :
  same_identity c c' → record_wf k c → record_wf k c'.
Proof.
  unfold same_identity, record_wf.
  intros (-> & -> & -> & -> & -> & -> & ->). done.
Qed.

Lemma step_records_wf st tx :
  wf_tx tx → 0 ≤ ctiCounter st →
  (∀ k, 1 ≤ k ≤ ctiCounter st → record_wf k (record_at st k)) →
  ∀ k, 1 ≤ k ≤ ctiCounter (step st tx) → record_wf k (record_at (step st tx) k).
Proof.
  intros (Hs & Ht & _) Hc Hwf k Hk.
  destruct (decide (k ≤ ctiCounter st)) as [Hold | Hnew].
  { destruct (step_record_stable st tx k Hold) as [Hid _].
    eapply record_wf_same_identity; [exact Hid | apply Hwf; lia]. }
  unfold step in *.
  destruct (call_contract (tx_env tx) (tx_call tx) st) as [[[st' evs] ret]|err] eqn:E;
    [|lia].
  apply call_contract_Ok_cases in E
    as [(h & c & t & _ & H & _) | [(i & up & _ & H & _) | (-> & _)]].
  - destruct (submitCTI_Ok_nonempty _ _ _ _ _ _ _ H) as (Hh & Hcat & Htitle).
    pose proof (submitCTI_new_record _ _ _ _ _ _ _ H) as Hget.
    pose proof (submitCTI_counter _ _ _ _ _ _ _ H) as Hctr.
    assert (k = ctiCounter st + 1) as -> by lia.
    rewrite Hget. unfold record_wf. simpl. done.
  - apply voteCTI_Ok_inv in H as (_ & _ & _ & _ & -> & _). simpl in Hk. lia.
  - lia.
Qed.

(** X17: in a reachable state the record of every assigned id is the one
    [submitCTI] stored under it: its [id] field is its key, its submitter
    is a 160-bit address, its content reference, category and title are
    non-empty, its timestamp is a [uint256] and it is active; so is the
    record [getCTI] returns. *)
Theorem stored_records_well_formed st k :
  reachable st → 1 ≤ k ≤ ctiCounter st →
  record_wf k (record_at st k) ∧
  ∃ c, getCTI st k = Ok c ∧ record_wf k c.
Proof.
  intros Hr Hk.
  assert (Hwf : ∀ k, 1 ≤ k ≤ ctiCounter st → record_wf k (record_at st k)).
  { clear k Hk. induction Hr as [|st tx Hr IH Htx].
    - intros k Hk. simpl in Hk. lia.
    - apply step_records_wf; [done | | done].
      apply (inv_counter st (reachable_inv st Hr)). }
  split; [by apply Hwf |].
  exists (record_at st k). split; [|by apply Hwf].
  unfold getCTI. rewrite validCTI_Ok; [done | done |].
  by apply reachable_all_active.
Qed.

Lemma stored_records_well_formed_witness :
  record_wf 2 (record_at sample_state 2) ∧
  ∃ c, getCTI sample_state 2 = Ok c ∧ record_wf 2 c.
Proof.
  apply (stored_records_well_formed sample_state 2 sample_state_reachable).
  solve_range.
Defined.



(** ** The event log mirrors the storage *)

Lemma count_votes_app k up l1 l2 :
  count_votes k up (l1 ++ l2) = count_votes k up l1 + count_votes k up l2.
Proof. unfold count_votes. rewrite filter_app, length_app. lia. Qed.

Lemma record_at_unassigned st k :
  registry_inv st → ¬ (1 ≤ k ≤ ctiCounter st) → record_at st k = zero_CTI.
Proof.
  intros Hinv Hk. unfold record_at.
  destruct (ctiRecords st !! k) as [c|] eqn:E; [|done].
  exfalso. apply Hk, (inv_assigned st Hinv). eauto.
Qed.

Lemma submitCTI_tallies e h c t st st' evs k :
  registry_inv st →
  submitCTI e h c t st = Ok (st', evs) →
  upvotes (record_at st' k) = upvotes (record_at st k) ∧
  downvotes (record_at st' k) = downvotes (record_at st k).
Proof.
  intros Hinv H. apply submitCTI_Ok_inv in H as (_ & -> & _).
  match goal with
  | |- context [record_at (mkState ?a ?b ?c ?d) k] => set (st' := mkState a b c d)
  end.
  rewrite (record_at_insert st' st (ctiCounter st + 1) _ k eq_refl).
  destruct (decide (k = ctiCounter st + 1)) as [-> | Hk]; [|done].
  rewrite record_at_unassigned by (done || lia). done.
Qed.

(** One transaction: the tallies grow by the votes it logs, and a pair is
    recorded as voted afterwards exactly if it was before or the
    transaction logs its vote. *)
Lemma step_events_votes st tx k :
  registry_inv st →
  upvotes (record_at (step st tx) k)
    = upvotes (record_at st k) + count_votes k true (tx_events st tx) ∧
  downvotes (record_at (step st tx) k)
    = downvotes (record_at st k) + count_votes k false (tx_events st tx) ∧
  ∀ u, voted_at (step st tx) k u = true ↔
       voted_at st k u = true ∨ ∃ up, CTIVoted k u up ∈ tx_events st tx.
Proof.
  intros Hinv. unfold step, tx_events.
  destruct (call_contract (tx_env tx) (tx_call tx) st) as [[[st' evs] ret]|err] eqn:E.
  2:{ unfold count_votes. simpl. split; [lia |]. split; [lia |].
      intros u. split; [auto |]. intros [? | [up Hin]]; [done |].
      by apply not_elem_of_nil in Hin. }
  apply call_contract_Ok_cases in E
    as [(h & c & t & _ & H & _) | [(i & up & _ & H & _) | (-> & -> & _)]].
  - destruct (submitCTI_tallies _ _ _ _ _ _ _ k Hinv H) as [-> ->].
    pose proof (λ u, submitCTI_voted_at _ _ _ _ _ _ _ k u H) as Hvotes.
    apply submitCTI_Ok_inv in H as (_ & _ & ->).
    unfold count_votes. simpl.
    split; [lia |]. split; [lia |].
    intros u. rewrite Hvotes. split; [auto |].
    intros [? | [up' Hin]]; [done |].
    apply list_elem_of_singleton in Hin. discriminate.
  - pose proof (voteCTI_record_at _ _ _ _ _ _ k H) as Hrec.
    pose proof (voteCTI_voted_at (tx_env tx) i up st st' evs k) as Hvoted.
    pose proof H as Hev. apply voteCTI_Ok_inv in Hev as (_ & _ & _ & _ & _ & ->).
    rewrite Hrec. unfold count_votes. simpl.
    destruct (decide (k = i)) as [-> | Hk].
    + rewrite !filter_cons, !filter_nil. simpl.
      rewrite !bool_decide_eq_true_2 by done. simpl.
      split; [destruct up; simpl; lia |].
      split; [destruct up; simpl; lia |].
      intros u. rewrite (Hvoted u H).
      destruct (decide (i = i ∧ u = msg_sender (tx_env tx))) as [[_ ->] | Hne].
      * split; [|done]. intros _. right. exists up. apply list_elem_of_here.
      * split; [auto |]. intros [? | [up' Hin]]; [done |].
        apply list_elem_of_singleton in Hin. injection Hin as -> _. tauto.
    + rewrite !filter_cons, !filter_nil. simpl.
      rewrite !(bool_decide_eq_false_2 (i = k)) by congruence. simpl.
      split; [lia |]. split; [lia |].
      intros u. rewrite (Hvoted u H), decide_False by tauto.
      split; [auto |]. intros [? | [up' Hin]]; [done |].
      apply list_elem_of_singleton in Hin. injection Hin as -> _ _. done.
  - unfold count_votes. simpl. split; [lia |]. split; [lia |].
    intros u. split; [auto |]. intros [? | [up Hin]]; [done |].
    by apply not_elem_of_nil in Hin.
Qed.

Lemma run_events_votes txs : ∀ st k,
  registry_inv st →
  upvotes (record_at (run st txs) k)
    = upvotes (record_at st k) + count_votes k true (event_log st txs) ∧
  downvotes (record_at (run st txs) k)
    = downvotes (record_at st k) + count_votes k false (event_log st txs) ∧
  ∀ u, voted_at (run st txs) k u = true ↔
       voted_at st k u = true ∨ ∃ up, CTIVoted k u up ∈ event_log st txs.
Proof.
  induction txs as [|tx txs IH]; intros st k Hinv.
  - change (run st []) with st. unfold count_votes. simpl.
    split; [lia |]. split; [lia |].
    intros u. split; [auto |]. intros [? | [up Hin]]; [done |].
    by apply not_elem_of_nil in Hin.
  - change (run st (tx :: txs)) with (run (step st tx) txs).
    destruct (IH (step st tx) k (step_preserves_inv st tx Hinv)) as (Hup & Hdn & Hv).
    destruct (step_events_votes st tx k Hinv) as (Hup1 & Hdn1 & Hv1).
    simpl. rewrite !count_votes_app.
    split; [lia |]. split; [lia |].
    intros u. rewrite Hv, Hv1. setoid_rewrite elem_of_app.
    split.
    + intros [[? | [up ?]] | [up ?]]; eauto.
    + intros [? | [up [? | ?]]]; eauto.
Qed.

(** X19: after any sequence of calls from deployment, the upvotes of a
    record equal the number of [CTIVoted(id, _, true)] events logged, its
    downvotes the number of [CTIVoted(id, _, false)] events, and
    [hasUserVoted(id, user)] is [true] exactly when the log holds a
    [CTIVoted] event of [user] on [id]. *)
Theorem tallies_match_event_log txs k :
  let st := run initial_state txs in
  let log := event_log initial_state txs in
  upvotes (record_at st k) = count_votes k true log ∧
  downvotes (record_at st k) = count_votes k false log ∧
  ∀ u, hasUserVoted st k u = Ok true ↔ ∃ up, CTIVoted k u up ∈ log.
Proof.
  intros st log.
  destruct (run_events_votes txs initial_state k registry_inv_initial)
    as (Hup & Hdn & Hv).
  fold st log in Hup, Hdn, Hv.
  split; [rewrite Hup; reflexivity |].
  split; [rewrite Hdn; reflexivity |].
  intros u. unfold hasUserVoted. split.
  - intros [= H]. apply Hv in H as [H | H]; [discriminate H | done].
  - intros H. f_equal. apply Hv. by right.
Qed.

Lemma submitted_ids_app l1 l2 :
  submitted_ids (l1 ++ l2) = submitted_ids l1 ++ submitted_ids l2.
Proof. unfold submitted_ids. apply omap_app. Qed.

Lemma step_events_submitted st tx :
  0 ≤ ctiCounter st →
  submitted_ids (tx_events st tx)
    = seqZ (ctiCounter st + 1) (ctiCounter (step st tx) - ctiCounter st) ∧
  ∀ i s h c t, CTISubmitted i s h c t ∈ tx_events st tx →
    i = ctiCounter (step st tx) ∧ ctiCounter st < i ∧
    id (record_at (step st tx) i) = i ∧
    submitter (record_at (step st tx) i) = s ∧
    ipfsHash (record_at (step st tx) i) = h ∧
    category (record_at (step st tx) i) = c ∧
    title (record_at (step st tx) i) = t.
Proof.
  intros Hc. unfold step, tx_events.
  destruct (call_contract (tx_env tx) (tx_call tx) st) as [[[st' evs] ret]|err] eqn:E.
  2:{ rewrite Z.sub_diag. split; [done |].
      intros i s h c t Hin. by apply not_elem_of_nil in Hin. }
  apply call_contract_Ok_cases in E
    as [(h & c & t & _ & H & _) | [(i & up & _ & H & _) | (-> & -> & _)]].
  - pose proof (submitCTI_new_record _ _ _ _ _ _ _ H) as Hget.
    pose proof (submitCTI_counter _ _ _ _ _ _ _ H) as Hctr.
    apply submitCTI_Ok_inv in H as (_ & _ & ->).
    rewrite Hctr. replace (ctiCounter st + 1 - ctiCounter st) with 1 by lia.
    split; [done |].
    intros i s h' c' t' Hin.
    apply list_elem_of_singleton in Hin. injection Hin as -> -> -> -> ->.
    rewrite Hget. simpl. repeat split; lia.
  - rewrite (voteCTI_counter _ _ _ _ _ _ H), (voteCTI_events _ _ _ _ _ _ H).
    rewrite Z.sub_diag. split; [done |].
    intros i' s h c t Hin. apply list_elem_of_singleton in Hin. discriminate.
  - rewrite Z.sub_diag. split; [done |].
    intros i s h c t Hin. by apply not_elem_of_nil in Hin.
Qed.

Lemma run_counter_mono txs : ∀ st, ctiCounter st ≤ ctiCounter (run st txs).
Proof.
  induction txs as [|tx txs IH]; intros st; [done |].
  change (run st (tx :: txs)) with (run (step st tx) txs).
  pose proof (step_counter_mono st tx). pose proof (IH (step st tx)). lia.
Qed.

Lemma run_events_submitted txs : ∀ st,
  0 ≤ ctiCounter st →
  submitted_ids (event_log st txs)
    = seqZ (ctiCounter st + 1) (ctiCounter (run st txs) - ctiCounter st) ∧
  ∀ i s h c t, CTISubmitted i s h c t ∈ event_log st txs →
    ctiCounter st < i ≤ ctiCounter (run st txs) ∧
    id (record_at (run st txs) i) = i ∧
    submitter (record_at (run st txs) i) = s ∧
    ipfsHash (record_at (run st txs) i) = h ∧
    category (record_at (run st txs) i) = c ∧
    title (record_at (run st txs) i) = t.
Proof.
  induction txs as [|tx txs IH]; intros st Hc.
  - change (run st []) with st. rewrite Z.sub_diag. split; [done |].
    intros i s h c t Hin. by apply not_elem_of_nil in Hin.
  - change (run st (tx :: txs)) with (run (step st tx) txs).
    pose proof (step_counter_mono st tx) as Hmono.
    pose proof (run_counter_mono txs (step st tx)) as Hmono'.
    destruct (step_events_submitted st tx Hc) as [Hids Hev].
    destruct (IH (step st tx)) as [Hids' Hev']; [lia |].
    simpl. rewrite submitted_ids_app, Hids, Hids'.
    split.
    + replace (ctiCounter (run (step st tx) txs) - ctiCounter st)
        with ((ctiCounter (step st tx) - ctiCounter st)
              + (ctiCounter (run (step st tx) txs) - ctiCounter (step st tx)))
        by lia.
      rewrite seqZ_app by lia. do 2 f_equal. lia.
    + intros i s h c t Hin. apply elem_of_app in Hin as [Hin | Hin].
      * destruct (Hev i s h c t Hin) as (Hi & Hlt & Hid & Hs & Hh & Hcat & Ht).
        destruct (run_same_identity txs (step st tx) i)
          as (Hid' & Hs' & Hh' & Hcat' & Ht' & _); [lia |].
        split; [lia |]. repeat split; congruence.
      * destruct (Hev' i s h c t Hin) as (Hr & Hrest).
        split; [lia | done].
Qed.

(** X20: after any sequence of calls from deployment, the [CTISubmitted]
    events of the log carry the ids [1, 2, ..., ctiCounter] in that order,
    and each of them still describes the record stored under its id:
    [getCTI] on that id succeeds and returns the submitter, content
    reference, category and title the event carries. *)
Theorem submissions_match_event_log txs :
  let st := run initial_state txs in
  let log := event_log initial_state txs in
  submitted_ids log = seqZ 1 (ctiCounter st) ∧
  ∀ i s h c t, CTISubmitted i s h c t ∈ log →
    1 ≤ i ≤ ctiCounter st ∧
    ∃ r, getCTI st i = Ok r ∧
         id r = i ∧ submitter r = s ∧ ipfsHash r = h ∧
         category r = c ∧ title r = t.
Proof.
  intros st log.
  assert (Hinv : registry_inv st) by apply run_inv, registry_inv_initial.
  destruct (run_events_submitted txs initial_state) as [Hids Hev]; [done |].
  fold st log in Hids, Hev.
  change (ctiCounter initial_state) with 0 in *.
  rewrite Z.sub_0_r in Hids.
  split; [exact Hids |].
  intros i s h c t Hin.
  destruct (Hev i s h c t Hin) as (Hr & Hrest).
  assert (Hi : 1 ≤ i ≤ ctiCounter st) by lia.
  split; [done |].
  exists (record_at st i). split; [|done].
  pose proof (record_at_Some st i Hinv Hi) as Hrec.
  apply (inv_record st Hinv) in Hrec as (_ & Ha & _).
  unfold getCTI. by rewrite validCTI_Ok.
Qed.

(** The two log theorems at the sample history. *)
Example event_log_sample :
  event_log initial_state sample_txs =
    [ CTISubmitted 1 10 "QmHash1" "Malware" "T1";
      CTISubmitted 2 10 "QmHash2" "Phishing" "T2";
      CTISubmitted 3 10 "QmHash3" "Ransomware" "T3";
      CTIVoted 2 11 false ] ∧
  count_votes 2 false (event_log initial_state sample_txs) = 1 ∧
  submitted_ids (event_log initial_state sample_txs) = [1; 2; 3].
Proof. repeat split; reflexivity. Qed.

(** ** The listing in closed form *)

Lemma lookup_reverse_seqZ (n : Z) (j : nat) :
  Z.of_nat j < n → reverse (seqZ 1 n) !! j = Some (n - Z.of_nat j).
Proof.
  intros Hj.
  rewrite reverse_lookup by (rewrite length_seqZ; lia).
  rewrite length_seqZ, lookup_seqZ_lt by lia. f_equal. lia.
Qed.

(** X21: in a reachable state the page [getActiveCTIs(limit, offset)] is
    the run of consecutive ids counting down from [ctiCounter - offset]:
    its entry at position [j] is [ctiCounter - offset - j], and it has
    [min limit (max 0 (ctiCounter - offset))] entries. *)
Theorem getActiveCTIs_closed_form st _limit _offset :
  reachable st → 1 ≤ _limit ≤ 100 → 0 ≤ _offset →
  ∃ page,
    getActiveCTIs st _limit _offset = Ok page ∧
    Z.of_nat (length page) = Z.min _limit (Z.max 0 (ctiCounter st - _offset)) ∧
    ∀ j : nat, (j < length page)%nat →
               page !! j = Some (ctiCounter st - _offset - Z.of_nat j).
Proof.
  intros Hr Hl Ho.
  pose proof (inv_counter st (reachable_inv st Hr)) as Hc.
  pose proof (reachable_active_ids st Hr) as Hids.
  exists (spec_listActive st _limit _offset).
  split; [by apply getActiveCTIs_refines |].
  assert (Hlen : Z.of_nat (length (spec_listActive st _limit _offset))
                 = Z.min _limit (Z.max 0 (ctiCounter st - _offset))).
  { rewrite spec_listActive_length by lia.
    rewrite Hids, length_reverse, length_seqZ. lia. }
  split; [done |].
  intros j Hj. unfold spec_listActive.
  rewrite lookup_take_lt by lia. rewrite lookup_drop, Hids.
  rewrite lookup_reverse_seqZ by lia. f_equal. lia.
Qed.

Lemma getActiveCTIs_closed_form_witness :
  ∃ page,
    getActiveCTIs sample_state 2 1 = Ok page ∧
    Z.of_nat (length page) = Z.min 2 (Z.max 0 (ctiCounter sample_state - 1)) ∧
    ∀ j : nat, (j < length page)%nat →
               page !! j = Some (ctiCounter sample_state - 1 - Z.of_nat j).
Proof.
  apply (getActiveCTIs_closed_form sample_state 2 1 sample_state_reachable); lia.
Defined.
